(** * The Monkey lexer: token model and scanner

    A shallow embedding of [token/token.go] and of the lexer
    ([Lexer], [New], [readChar], [NextToken] and its helpers), followed by
    the properties of the scanner that the specification states.  Of the
    two versions of the lexer in the source, the embedding is of the one
    with the two-character operators [==] and [!=] and with [peekChar];
    the [NextToken] of the other, earlier one is in the module [lexer0].

    Modelling conventions.
    - A Go [string] is a sequence of bytes: it is a [string] here, whose
      characters ([ascii]) are exactly the 256 byte values.  The sentinel
      [0] of the lexer is the byte [zero].
    - The cursor fields are Go [int]s.  They are integers ([Z]) here, and
      [readPosition += 1] is a plain addition: the fields start at 0 and
      after [k] calls of [NextToken] they are at most [len(input) + k + 1]
      (lemma [lexer_spec.cursor_bound] at the end of the file), so the model
      is the program for as long as that number fits an [int].
    - Go's run-time checks are explicit: indexing and slicing a string out
      of range give [Panic].
    - A method with receiver [l *Lexer] is a computation in the monad
      [M A := Lexer -> result (A * Lexer)].
    - The [for] loops take fuel; [OutOfFuel] is kept apart from [Panic], and
      the fuel each loop is given is shown to be enough in every state. *)

From Stdlib Require Import ZArith Lia Ascii String List Bool.
From stdpp Require Import base gmap strings.

Local Open Scope string_scope.
Local Open Scope Z_scope.

(** ** Package token *)

Module token.

(** [type TokenType string] *)
Definition TokenType : Type := string.

(** [type Token struct { Type TokenType; Literal string }].  [Type] is a
    reserved word, the field is [Type_]. *)
Record Token : Type := mkToken { Type_ : TokenType; Literal : string }.

Definition ILLEGAL : TokenType := "ILLEGAL".
Definition EOF : TokenType := "EOF".
Definition IDENT : TokenType := "IDENT".
Definition INT : TokenType := "INT".
Definition ASSIGN : TokenType := "=".
Definition PLUS : TokenType := "+".
Definition COMMA : TokenType := ",".
Definition SEMICOLON : TokenType := ";".
Definition LPAREN : TokenType := "(".
Definition RPAREN : TokenType := ")".
Definition LBRACE : TokenType := "{".
Definition RBRACE : TokenType := "}".
Definition FUNCTION : TokenType := "FUNCTION".
Definition LET : TokenType := "LET".

(** Modelled from the spec: the lexer uses the constants [token.MINUS],
    [token.BANG], [token.ASTERISK], [token.SLASH], [token.LT], [token.GT],
    [token.EQ] and [token.NOT_EQ], whose declarations are missing from
    [token.go].  The specification lists them as the kinds [Minus], [Bang],
    [Asterisk], [Slash], [LessThan], [GreaterThan], [Equal] and [NotEqual]
    of a closed enumeration, so they are pairwise distinct and distinct from
    the declared ones.  As for the declared operator kinds, the value is the
    spelling of the operator. *)
Definition MINUS : TokenType := "-".
Definition BANG : TokenType := "!".
Definition ASTERISK : TokenType := "*".
Definition SLASH : TokenType := "/".
Definition LT : TokenType := "<".
Definition GT : TokenType := ">".
Definition EQ : TokenType := "==".
Definition NOT_EQ : TokenType := "!=".

(** [var keywords = map[string]TokenType{"fn": FUNCTION, "let": LET}] *)
Definition keywords : gmap string TokenType :=
  <["fn" := FUNCTION]> (<["let" := LET]> ∅).

(** [func LookupIdent(ident string) TokenType] *)
Definition LookupIdent (ident : string) : TokenType :=
  match keywords !! ident with
  | Some tok => tok
  | None => IDENT
  end.

End token.

(** ** Go strings and bytes *)

Module gostring.

(** [len(s)] *)
Definition len (s : string) : Z := Z.of_nat (String.length s).

(** Run-time results: a value, a run-time panic, or a loop of the model
    that ran out of fuel. *)
Inductive result (A : Type) : Type :=
| Ok (a : A)
| Panic
| OutOfFuel.
Arguments Ok {A} a.
Arguments Panic {A}.
Arguments OutOfFuel {A}.

Definition res_bind {A B : Type} (r : result A) (k : A -> result B) : result B :=
  match r with
  | Ok a => k a
  | Panic => Panic
  | OutOfFuel => OutOfFuel
  end.

Definition res_map {A B : Type} (f : A -> B) (r : result A) : result B :=
  res_bind r (fun a => Ok (f a)).

(** [s[i]]: panics unless [0 <= i < len(s)]. *)
Definition index (s : string) (i : Z) : result ascii :=
  if (i <? 0) || (len s <=? i) then Panic
  else match String.get (Z.to_nat i) s with
       | Some c => Ok c
       | None => Panic
       end.

(** [s[lo:hi]]: panics unless [0 <= lo <= hi <= len(s)]. *)
Definition slice (s : string) (lo hi : Z) : result string :=
  if (lo <? 0) || (hi <? lo) || (len s <? hi) then Panic
  else Ok (String.substring (Z.to_nat lo) (Z.to_nat (hi - lo)) s).

(** [a <= b] on bytes. *)
Definition byte_le (a b : ascii) : bool :=
  (N_of_ascii a <=? N_of_ascii b)%N.

(** [string(ch)] for [ch byte]: the conversion of an integer to a string
    gives the UTF-8 encoding of the code point with that value.  Below
    0x80 it is the byte itself, from 0x80 to 0xFF it is two bytes. *)
Definition string_of_byte (c : ascii) : string :=
  let n := N_of_ascii c in
  if (n <? 128)%N then String c EmptyString
  else String (ascii_of_N (N.lor 192 (N.shiftr n 6)))
         (String (ascii_of_N (N.lor 128 (N.land n 63))) EmptyString).

End gostring.

(** ** Package lexer *)

Module lexer.
Import token gostring.

(** [type Lexer struct] *)
Record Lexer : Type := mkLexer {
  input : string;       (* the input string to tokenize *)
  position : Z;         (* points to the current character *)
  readPosition : Z;     (* points to the next character *)
  ch : ascii            (* current character under examination *)
}.

(** Methods on [*Lexer]: they read and update the receiver, and may fail. *)
Definition M (A : Type) : Type := Lexer -> result (A * Lexer).

Definition ret {A : Type} (a : A) : M A := fun l => Ok (a, l).

Definition bind {A B : Type} (m : M A) (k : A -> M B) : M B :=
  fun l =>
    match m l with
    | Ok (a, l') => k a l'
    | Panic => Panic
    | OutOfFuel => OutOfFuel
    end.

(** reading a field of the receiver *)
Definition gets {A : Type} (f : Lexer -> A) : M A := fun l => Ok (f l, l).

(** a fallible expression that leaves the receiver alone *)
Definition lift {A : Type} (r : result A) : M A :=
  fun l =>
    match r with
    | Ok a => Ok (a, l)
    | Panic => Panic
    | OutOfFuel => OutOfFuel
    end.

Declare Scope lexer_scope.
Delimit Scope lexer_scope with lexer.
Notation "'let*' x ':=' m 'in' k" := (bind m (fun x => k))
  (at level 10, x name, m at level 200, k at level 200) : lexer_scope.
Local Open Scope lexer_scope.

(** [for cond(l) { body }] *)
Fixpoint while (fuel : nat) (cond : Lexer -> bool) (body : M unit) : M unit :=
  fun l =>
    if cond l then
      match fuel with
      | O => OutOfFuel
      | S fuel' =>
          match body l with
          | Ok (_, l') => while fuel' cond body l'
          | Panic => Panic
          | OutOfFuel => OutOfFuel
          end
      end
    else Ok (tt, l).

(** The loops of the lexer advance once per iteration and stop at the
    sentinel, which [readChar] stores once [readPosition] has reached the
    end: one more iteration than the length of the input is never needed. *)
Definition loop_fuel (l : Lexer) : nat := S (String.length (input l)).

(** [func (l *Lexer) readChar()] *)
Definition readChar : M unit :=
  fun l =>
    let c := if len (input l) <=? readPosition l then Ok zero
             else index (input l) (readPosition l) in
    match c with
    | Ok c => Ok (tt, {| input := input l;
                         position := readPosition l;
                         readPosition := readPosition l + 1;
                         ch := c |})
    | Panic => Panic
    | OutOfFuel => OutOfFuel
    end.

(** [func New(input string) *Lexer] *)
Definition New (input : string) : result Lexer :=
  res_map snd
    (readChar {| input := input; position := 0; readPosition := 0;
                 ch := zero |}).

(** [func (l *Lexer) peekChar() byte] *)
Definition peekChar : M ascii :=
  fun l =>
    if len (input l) <=? readPosition l then Ok (zero, l)
    else lift (index (input l) (readPosition l)) l.

(** [func isDigit(ch byte) bool] *)
Definition isDigit (ch : ascii) : bool :=
  byte_le "0" ch && byte_le ch "9".

(** [func isLetter(ch byte) bool] *)
Definition isLetter (ch : ascii) : bool :=
  byte_le "a" ch && byte_le ch "z" || byte_le "A" ch && byte_le ch "Z"
  || Ascii.eqb ch "_".

(** the condition of the loop of [skipWhitespace] *)
Definition isWhitespace (ch : ascii) : bool :=
  Ascii.eqb ch " " || Ascii.eqb ch "009" || Ascii.eqb ch "010"
  || Ascii.eqb ch "013".

(** [func (l *Lexer) skipWhitespace()] *)
Definition skipWhitespace : M unit :=
  fun l => while (loop_fuel l) (fun l => isWhitespace (ch l)) readChar l.

(** [func (l *Lexer) readNumber() string] *)
Definition readNumber : M string :=
  let* position0 := gets position in
  let* _ := (fun l => while (loop_fuel l) (fun l => isDigit (ch l)) readChar l) in
  let* l := gets id in
  lift (slice (input l) position0 (position l)).

(** [func (l *Lexer) readIdentifier() string] *)
Definition readIdentifier : M string :=
  let* position0 := gets position in
  let* _ := (fun l => while (loop_fuel l) (fun l => isLetter (ch l)) readChar l) in
  let* l := gets id in
  lift (slice (input l) position0 (position l)).

(** [func newToken(tokenType token.TokenType, ch byte) token.Token] *)
Definition newToken (tokenType : TokenType) (ch : ascii) : Token :=
  {| Type_ := tokenType; Literal := string_of_byte ch |}.

(** [func newTwoCharToken(tokenType token.TokenType, ch1 byte, ch2 byte) token.Token] *)
Definition newTwoCharToken (tokenType : TokenType) (ch1 ch2 : ascii) : Token :=
  {| Type_ := tokenType;
     Literal := string_of_byte ch1 ++ string_of_byte ch2 |}.

(** How a branch of the [switch] of [NextToken] ends: with [return tok], or
    by leaving the [switch] with [tok] set. *)
Inductive flow : Type :=
| Return (tok : Token)
| Break (tok : Token).

(** The [switch l.ch] of [NextToken]. *)
Definition switch_ch : M flow :=
  let* c := gets ch in
  if Ascii.eqb c "=" then
    let* p := peekChar in
    if Ascii.eqb p "=" then
      let* _ := readChar in
      let* c2 := gets ch in
      ret (Break (newTwoCharToken EQ c c2))
    else ret (Break (newToken ASSIGN c))
  else if Ascii.eqb c "+" then ret (Break (newToken PLUS c))
  else if Ascii.eqb c "-" then ret (Break (newToken MINUS c))
  else if Ascii.eqb c "!" then
    let* p := peekChar in
    if Ascii.eqb p "=" then
      let* _ := readChar in
      let* c2 := gets ch in
      ret (Break (newTwoCharToken NOT_EQ c c2))
    else ret (Break (newToken BANG c))
  else if Ascii.eqb c "*" then ret (Break (newToken ASTERISK c))
  else if Ascii.eqb c "/" then ret (Break (newToken SLASH c))
  else if Ascii.eqb c "<" then ret (Break (newToken LT c))
  else if Ascii.eqb c ">" then ret (Break (newToken GT c))
  else if Ascii.eqb c "," then ret (Break (newToken COMMA c))
  else if Ascii.eqb c ";" then ret (Break (newToken SEMICOLON c))
  else if Ascii.eqb c "(" then ret (Break (newToken LPAREN c))
  else if Ascii.eqb c ")" then ret (Break (newToken RPAREN c))
  else if Ascii.eqb c "{" then ret (Break (newToken LBRACE c))
  else if Ascii.eqb c "}" then ret (Break (newToken RBRACE c))
  else if Ascii.eqb c zero then
    ret (Break {| Type_ := EOF; Literal := "" |})
  else if isLetter c then
    let* lit := readIdentifier in
    ret (Return {| Type_ := LookupIdent lit; Literal := lit |})
  else if isDigit c then
    let* lit := readNumber in
    ret (Return {| Type_ := INT; Literal := lit |})
  else ret (Break (newToken ILLEGAL c)).

(** [func (l *Lexer) NextToken() token.Token] *)
Definition NextToken : M Token :=
  let* _ := skipWhitespace in
  let* f := switch_ch in
  match f with
  | Return tok => ret tok
  | Break tok => let* _ := readChar in ret tok
  end.

(** The consumer's loop: [n] calls of [NextToken], with the tokens
    returned in order. *)
Fixpoint NextTokens (n : nat) : M (list Token) :=
  match n with
  | O => ret nil
  | S n' =>
      let* tok := NextToken in
      let* toks := NextTokens n' in
      ret (tok :: toks)
  end.

(** The tokens that the first [n] calls of [NextToken] return on a lexer
    made by [New input]. *)
Definition lex (n : nat) (input : string) : result (list Token) :=
  res_bind (New input) (fun l => res_map fst (NextTokens n l)).



(** [n] advances in a row. *)
Fixpoint readChars (n : nat) : M unit :=
  match n with
  | O => ret tt
  | S n' => let* _ := readChar in readChars n'
  end.

End lexer.

(** ** Package lexer, the earlier version

    The source holds a second, earlier version of the lexer.  Its
    [Lexer], [New], [readChar], [readNumber], [isDigit], [skipWhitespace],
    [readIdentifier], [isLetter] and [newToken] are those of the later
    version, and are shared here; it has no [peekChar] and no
    [newTwoCharToken], and its [NextToken] knows fewer characters. *)

Module lexer0.
Import token gostring lexer.
Local Open Scope lexer_scope.

(** The [switch l.ch] of the earlier [NextToken]. *)
Definition switch_ch : M flow :=
  let* c := gets ch in
  if Ascii.eqb c "=" then ret (Break (newToken ASSIGN c))
  else if Ascii.eqb c ";" then ret (Break (newToken SEMICOLON c))
  else if Ascii.eqb c "(" then ret (Break (newToken LPAREN c))
  else if Ascii.eqb c ")" then ret (Break (newToken RPAREN c))
  else if Ascii.eqb c "," then ret (Break (newToken COMMA c))
  else if Ascii.eqb c "+" then ret (Break (newToken PLUS c))
  else if Ascii.eqb c "{" then ret (Break (newToken LBRACE c))
  else if Ascii.eqb c "}" then ret (Break (newToken RBRACE c))
  else if Ascii.eqb c zero then
    ret (Break {| Type_ := EOF; Literal := "" |})
  else if isLetter c then
    let* lit := readIdentifier in
    ret (Return {| Type_ := LookupIdent lit; Literal := lit |})
  else if isDigit c then
    let* lit := readNumber in
    ret (Return {| Type_ := INT; Literal := lit |})
  else ret (Break (newToken ILLEGAL c)).

(** [func (l *Lexer) NextToken() token.Token], earlier version *)
Definition NextToken : M Token :=
  let* _ := skipWhitespace in
  let* f := switch_ch in
  match f with
  | Return tok => ret tok
  | Break tok => let* _ := readChar in ret tok
  end.

(** The consumer's loop on the earlier version: [n] calls of [NextToken],
    with the tokens returned in order. *)
Fixpoint NextTokens (n : nat) : M (list Token) :=
  match n with
  | O => ret nil
  | S n' =>
      let* tok := NextToken in
      let* toks := NextTokens n' in
      ret (tok :: toks)
  end.

(** The tokens that the first [n] calls of the earlier [NextToken] return
    on a lexer made by [New input]. *)
Definition lex (n : nat) (input : string) : result (list Token) :=
  res_bind (New input) (fun l => res_map fst (NextTokens n l)).

End lexer0.

(** * Predicates on the states of the lexer *)

Module lexer_props.
Import token gostring lexer.
Local Open Scope lexer_scope.

(** The byte of [s] at [i], and the sentinel outside of [s]. *)
Definition char_at (s : string) (i : Z) : ascii :=
  if i <? 0 then zero
  else match String.get (Z.to_nat i) s with
       | Some c => c
       | None => zero
       end.

(** What one advance makes of a state. *)
Definition advance (l : Lexer) : Lexer :=
  {| input := input l;
     position := readPosition l;
     readPosition := readPosition l + 1;
     ch := char_at (input l) (readPosition l) |}.

(** The token that a branch of the [switch] leaves with. *)
Definition flow_tok (f : flow) : Token :=
  match f with
  | Return tok => tok
  | Break tok => tok
  end.

(** The token of the [case 0] branch. *)
Definition EOF_token : Token := {| Type_ := EOF; Literal := "" |}.

(** The invariant of the cursor: [position] is an index from 0 on,
    [readPosition] is the next one, and [ch] is the byte of the input at
    [position], or 0 past the end. *)
Record wf (l : Lexer) : Prop := mk_wf {
  wf_position : 0 <= position l;
  wf_readPosition : readPosition l = position l + 1;
  wf_ch : ch l = char_at (input l) (position l)
}.

(** The states of a lexer on [inp]: after construction, and after every
    advance. *)
Inductive reachable (inp : string) : Lexer -> Prop :=
| reachable_New (l : Lexer) :
    New inp = Ok l -> reachable inp l
| reachable_readChar (l l' : Lexer) :
    reachable inp l -> readChar l = Ok (tt, l') -> reachable inp l'.


(** [has_byte c s]: the byte [c] occurs in [s]. *)
Fixpoint has_byte (c : ascii) (s : string) : bool :=
  match s with
  | EmptyString => false
  | String c' s' => Ascii.eqb c c' || has_byte c s'
  end.







(** The characters of the [case] labels of the operators and the
    punctuation. *)
Definition operator_chars : list ascii :=
  [ "="; "+"; "-"; "!"; "*"; "/"; "<"; ">"; ","; ";"; "("; ")"; "{"; "}" ]%char.

(** A byte that is not whitespace, not a letter or an underscore, not a
    digit, not the sentinel and not an operator or a punctuation
    character. *)
Definition unrecognized (c : ascii) : bool :=
  negb (isWhitespace c) && negb (isLetter c) && negb (isDigit c)
  && negb (Ascii.eqb c zero) && negb (existsb (Ascii.eqb c) operator_chars).



End lexer_props.

(** * Predicates on tokens and on the branches of the [switch] *)

Module lexer_more_props.
Import token gostring lexer lexer_props.
Local Open Scope lexer_scope.

(** Every byte of [s] satisfies [f]. *)
Fixpoint all_bytes (f : ascii -> bool) (s : string) : bool :=
  match s with
  | EmptyString => true
  | String c s' => f c && all_bytes f s'
  end.

(** The kinds of the one-character operators and punctuation, in the
    order of their [case]s. *)
Definition single_kinds : list TokenType :=
  [ ASSIGN; PLUS; MINUS; BANG; ASTERISK; SLASH; LT; GT; COMMA; SEMICOLON;
    LPAREN; RPAREN; LBRACE; RBRACE ].

(** The kinds of all the operators and punctuation, the two-character
    ones included. *)
Definition operator_kinds : list TokenType := single_kinds ++ [ EQ; NOT_EQ ].

(** The kinds that the identifier branch gives. *)
Definition word_kinds : list TokenType := [ IDENT; FUNCTION; LET ].

(** The branches of the [switch] of [NextToken]: the branch taken in the
    state [l], the way it ends, and the state it leaves. *)
Inductive switch_case (l : Lexer) : flow -> Lexer -> Prop :=
| case_one_char (K : TokenType) :
    existsb (Ascii.eqb (ch l)) operator_chars = true ->
    In K single_kinds ->
    (Ascii.eqb (ch l) "=" || Ascii.eqb (ch l) "!" = true ->
     Ascii.eqb (char_at (input l) (readPosition l)) "=" = false) ->
    switch_case l (Break (newToken K (ch l))) l
| case_two_char (K : TokenType) :
    (ch l = "="%char /\ K = EQ) \/ (ch l = "!"%char /\ K = NOT_EQ) ->
    char_at (input l) (readPosition l) = "="%char ->
    switch_case l (Break (newTwoCharToken K (ch l) "=")) (advance l)
| case_sentinel :
    ch l = zero ->
    switch_case l (Break EOF_token) l
| case_identifier (lit : string) (l' : Lexer) :
    isLetter (ch l) = true ->
    readIdentifier l = Ok (lit, l') ->
    switch_case l (Return {| Type_ := LookupIdent lit; Literal := lit |}) l'
| case_number (lit : string) (l' : Lexer) :
    isDigit (ch l) = true ->
    readNumber l = Ok (lit, l') ->
    switch_case l (Return {| Type_ := INT; Literal := lit |}) l'
| case_default :
    existsb (Ascii.eqb (ch l)) operator_chars = false ->
    ch l <> zero ->
    isLetter (ch l) = false ->
    isDigit (ch l) = false ->
    switch_case l (Break (newToken ILLEGAL (ch l))) l.

(** The state that [NextToken] leaves after the [switch]: a branch that
    does not return is followed by one advance. *)
Definition after_switch (f : flow) (l : Lexer) : Lexer :=
  match f with
  | Return _ => l
  | Break _ => advance l
  end.

(** The number of the classes of characters that [c] is in: whitespace,
    letters, digits, the sentinel, the operators and punctuation, and the
    rest. *)
Definition class_count (c : ascii) : nat :=
  (if isWhitespace c then 1 else 0) + (if isLetter c then 1 else 0)
  + (if isDigit c then 1 else 0) + (if Ascii.eqb c zero then 1 else 0)
  + (if existsb (Ascii.eqb c) operator_chars then 1 else 0)
  + (if unrecognized c then 1 else 0).

(** The characters that only the later version of the lexer knows. *)
Definition later_operator_chars : list ascii :=
  [ "-"; "!"; "*"; "/"; "<"; ">" ]%char.

(** The later version of [NextToken] treats the state [l], which is on no
    whitespace, in a way that the earlier version does not know: [l] is on
    one of the later operators, or on [=] followed by [=]. *)
Definition later_only (l : Lexer) : bool :=
  existsb (Ascii.eqb (ch l)) later_operator_chars
  || Ascii.eqb (ch l) "=" && Ascii.eqb (char_at (input l) (readPosition l)) "=".

(** The one-character operators and punctuation whose kinds [token.go]
    declares, but for [=], which takes a lookahead. *)
Definition declared_punctuation : list ascii :=
  [ "+"; ","; ";"; "("; ")"; "{"; "}" ]%char.

(** The byte [a] occurs in [s] with the byte [b] right after it. *)
Fixpoint has_pair (a b : ascii) (s : string) : bool :=
  match s with
  | EmptyString => false
  | String c s' =>
      (Ascii.eqb c a
       && match s' with
          | EmptyString => false
          | String c' _ => Ascii.eqb c' b
          end)
      || has_pair a b s'
  end.

(** An input in which none of the characters [-], [!], [*], [/], [<], [>]
    occurs, and no [=] is followed by a [=]. *)
Definition earlier_input (inp : string) : bool :=
  negb (existsb (fun c => has_byte c inp) later_operator_chars)
  && negb (has_pair "=" "=" inp).

End lexer_more_props.

(** * Properties *)

(** ** Keyword resolution *)

Module token_facts.
Import token.

Lemma keywords_lookup (s : string) :
  keywords !! s =
    if decide (s = "fn") then Some FUNCTION
    else if decide (s = "let") then Some LET
    else None.
Proof.
  unfold keywords.
  destruct (decide (s = "fn")) as [->|Hfn].
  - apply lookup_insert_eq.
  - rewrite lookup_insert_ne by congruence.
    destruct (decide (s = "let")) as [->|Hlet].
    + apply lookup_insert_eq.
    + rewrite lookup_insert_ne by congruence. apply lookup_empty.
Qed.

Lemma LookupIdent_cases (s : string) :
  LookupIdent s =
    if decide (s = "fn") then FUNCTION
    else if decide (s = "let") then LET
    else IDENT.
Proof.
  unfold LookupIdent. rewrite keywords_lookup.
  repeat case_decide; reflexivity.
Qed.

Lemma LookupIdent_not_EOF (s : string) : LookupIdent s <> EOF.
Proof.
  rewrite LookupIdent_cases. repeat case_decide; discriminate.
Qed.

End token_facts.

(** ** The cursor *)

Module lexer_facts.
Import token gostring lexer lexer_props token_facts.
Local Open Scope lexer_scope.

Lemma get_ge (s : string) (n : nat) :
  (String.length s <= n)%nat -> String.get n s = None.
Proof.
  revert n. induction s as [|c s IH]; intros n Hn; simpl in *.
  - reflexivity.
  - destruct n as [|n]; [lia|]. apply IH. lia.
Qed.

Lemma get_lt (s : string) (n : nat) :
  (n < String.length s)%nat -> exists c, String.get n s = Some c.
Proof.
  revert n. induction s as [|c s IH]; intros n Hn; simpl in *.
  - lia.
  - destruct n as [|n]; [eauto|]. apply IH. lia.
Qed.

Lemma char_at_ge (s : string) (i : Z) : len s <= i -> char_at s i = zero.
Proof.
  intros Hi. unfold char_at, len in *.
  destruct (i <? 0); [reflexivity|].
  rewrite get_ge by lia. reflexivity.
Qed.

Lemma index_char_at (s : string) (i : Z) :
  0 <= i < len s -> index s i = Ok (char_at s i).
Proof.
  intros Hi. unfold index, char_at.
  destruct (Z.ltb_spec i 0); [lia|].
  destruct (Z.leb_spec (len s) i); [lia|]. simpl.
  destruct (get_lt s (Z.to_nat i)) as [c Hc]; [unfold len in *; lia|].
  rewrite Hc. reflexivity.
Qed.

Lemma index_neg (s : string) (i : Z) : i < 0 -> index s i = Panic.
Proof.
  intros Hi. unfold index. destruct (Z.ltb_spec i 0); [reflexivity|lia].
Qed.

(** [readChar] panics on a negative [readPosition] and otherwise is
    [advance]. *)
Lemma readChar_spec (l : Lexer) :
  readChar l = if readPosition l <? 0 then Panic else Ok (tt, advance l).
Proof.
  unfold readChar, advance.
  pose proof (Zle_0_nat (String.length (input l))) as Hlen.
  fold (len (input l)) in Hlen.
  destruct (Z.leb_spec (len (input l)) (readPosition l)) as [Hge|Hlt].
  - destruct (Z.ltb_spec (readPosition l) 0); [lia|].
    rewrite char_at_ge by assumption. reflexivity.
  - destruct (Z.ltb_spec (readPosition l) 0).
    + rewrite index_neg by assumption. reflexivity.
    + rewrite index_char_at by lia. reflexivity.
Qed.

Lemma readChar_Ok (l : Lexer) (u : unit) (l' : Lexer) :
  readChar l = Ok (u, l') -> 0 <= readPosition l /\ l' = advance l.
Proof.
  rewrite readChar_spec.
  destruct (Z.ltb_spec (readPosition l) 0); [discriminate|].
  intros [= _ <-]. split; [assumption|reflexivity].
Qed.

Lemma peekChar_spec (l : Lexer) :
  peekChar l =
    if readPosition l <? 0 then Panic
    else Ok (char_at (input l) (readPosition l), l).
Proof.
  unfold peekChar, lift.
  pose proof (Zle_0_nat (String.length (input l))) as Hlen.
  fold (len (input l)) in Hlen.
  destruct (Z.leb_spec (len (input l)) (readPosition l)) as [Hge|Hlt].
  - destruct (Z.ltb_spec (readPosition l) 0); [lia|].
    rewrite char_at_ge by assumption. reflexivity.
  - destruct (Z.ltb_spec (readPosition l) 0).
    + rewrite index_neg by assumption. reflexivity.
    + rewrite index_char_at by lia. reflexivity.
Qed.

(** *** Every operation moves the cursor by advances only *)

Lemma readChars_S (n : nat) (l : Lexer) :
  readChars (S n) l =
    if readPosition l <? 0 then Panic else readChars n (advance l).
Proof.
  simpl. unfold bind. rewrite readChar_spec.
  destruct (readPosition l <? 0); reflexivity.
Qed.

Lemma readChars_app (n m : nat) (l l1 l2 : Lexer) :
  readChars n l = Ok (tt, l1) ->
  readChars m l1 = Ok (tt, l2) ->
  readChars (n + m) l = Ok (tt, l2).
Proof.
  revert l. induction n as [|n IH]; intros l Hn Hm.
  - simpl in Hn. injection Hn as <-. exact Hm.
  - change (S n + m)%nat with (S (n + m)).
    rewrite readChars_S in *.
    destruct (readPosition l <? 0); [discriminate|].
    apply IH; assumption.
Qed.

Lemma readChars_one (l : Lexer) :
  0 <= readPosition l -> readChars 1 l = Ok (tt, advance l).
Proof.
  intros H. rewrite readChars_S.
  destruct (Z.ltb_spec (readPosition l) 0); [lia|reflexivity].
Qed.


(** A loop over [readChar] advances once per iteration, and at least once
    when its condition holds on entry. *)
Lemma while_advances (cond : Lexer -> bool) (fuel : nat) :
  forall l l', while fuel cond readChar l = Ok (tt, l') ->
    cond l' = false /\
    exists n, readChars n l = Ok (tt, l') /\ (cond l = true -> (1 <= n)%nat).
Proof.
  induction fuel as [|fuel IH]; intros l l' H; simpl in H.
  - destruct (cond l) eqn:Hc; [discriminate|].
    injection H as <-. split; [assumption|].
    exists 0%nat. split; [reflexivity|discriminate].
  - destruct (cond l) eqn:Hc.
    + rewrite readChar_spec in H.
      destruct (Z.ltb_spec (readPosition l) 0) as [|Hrp]; [discriminate|].
      destruct (IH _ _ H) as (Hc' & n & Hn & _).
      split; [assumption|].
      exists (S n). split; [|lia].
      exact (readChars_app 1 n _ _ _ (readChars_one l Hrp) Hn).
    + injection H as <-. split; [assumption|].
      exists 0%nat. split; [reflexivity|discriminate].
Qed.

Lemma skipWhitespace_advances (l l' : Lexer) :
  skipWhitespace l = Ok (tt, l') ->
  isWhitespace (ch l') = false /\
  exists n, readChars n l = Ok (tt, l').
Proof.
  unfold skipWhitespace. intros H.
  destruct (while_advances _ _ _ _ H) as (Hc & n & Hn & _). eauto.
Qed.

Lemma readRun_advances (cond : ascii -> bool) (l : Lexer) (lit : string) (l' : Lexer) :
  (let* position0 := gets position in
   let* _ := (fun l => while (loop_fuel l) (fun l => cond (ch l)) readChar l) in
   let* l := gets id in
   lift (slice (input l) position0 (position l))) l = Ok (lit, l') ->
  cond (ch l') = false /\
  slice (input l') (position l) (position l') = Ok lit /\
  exists n, readChars n l = Ok (tt, l') /\ (cond (ch l) = true -> (1 <= n)%nat).
Proof.
  unfold bind, gets, lift, id. intros H.
  destruct (while _ _ _ l) as [[[] l1]| |] eqn:Hw; try discriminate.
  destruct (slice _ _ _) as [s| |] eqn:Hs; try discriminate.
  injection H as <- <-.
  destruct (while_advances _ _ _ _ Hw) as (Hc & n & Hn & Hpos).
  repeat split; [assumption|assumption|]. exists n. split; assumption.
Qed.

Lemma readIdentifier_advances (l : Lexer) (lit : string) (l' : Lexer) :
  readIdentifier l = Ok (lit, l') ->
  isLetter (ch l') = false /\
  slice (input l') (position l) (position l') = Ok lit /\
  exists n, readChars n l = Ok (tt, l') /\ (isLetter (ch l) = true -> (1 <= n)%nat).
Proof. apply (readRun_advances isLetter). Qed.

Lemma readNumber_advances (l : Lexer) (lit : string) (l' : Lexer) :
  readNumber l = Ok (lit, l') ->
  isDigit (ch l') = false /\
  slice (input l') (position l) (position l') = Ok lit /\
  exists n, readChars n l = Ok (tt, l') /\ (isDigit (ch l) = true -> (1 <= n)%nat).
Proof. apply (readRun_advances isDigit). Qed.

Ltac switch_step H :=
  lazymatch type of H with
  | (if ?b then _ else _) _ = _ =>
      let E := fresh "E" in destruct b eqn:E; cbv beta iota in H
  | context [peekChar ?l] =>
      rewrite (peekChar_spec l) in H;
      destruct (Z.ltb_spec (readPosition l) 0); [discriminate H|];
      cbv beta iota in H
  | context [readChar ?l] =>
      rewrite (readChar_spec l) in H;
      destruct (Z.ltb_spec (readPosition l) 0); [discriminate H|];
      cbv beta iota in H
  end.

(** The [switch]: the advances each branch makes, the branches that
    return, and the only branch that gives an [EOF] token. *)
Lemma switch_ch_inv (l : Lexer) (f : flow) (l' : Lexer) :
  switch_ch l = Ok (f, l') ->
  (exists n, readChars n l = Ok (tt, l') /\
             match f with Return _ => (1 <= n)%nat | Break _ => True end) /\
  (Type_ (flow_tok f) = EOF -> ch l = zero /\ l' = l /\ f = Break EOF_token).
Proof.
  intros H. cbv beta iota delta [switch_ch bind gets ret] in H.
  repeat (switch_step H;
    [ repeat switch_step H;
      try (injection H as <- <-;
           split;
           [ first [ exists 0%nat; split; [reflexivity|exact I]
                   | exists 1%nat; split; [apply readChars_one; assumption|exact I] ]
           | intros Ht; cbv in Ht; try discriminate Ht ])
    | ]).
  - (* case 0 *)
    split; [apply Ascii.eqb_eq; assumption|]. split; reflexivity.
  - (* identifiers *)
    destruct (readIdentifier l) as [[lit l1]| |] eqn:Hr; try discriminate H.
    injection H as <- <-.
    destruct (readIdentifier_advances _ _ _ Hr) as (_ & _ & n & Hn & Hpos).
    split; [exists n; auto|].
    intros Ht. simpl in Ht. destruct (LookupIdent_not_EOF _ Ht).
  - (* numbers *)
    destruct (readNumber l) as [[lit l1]| |] eqn:Hr; try discriminate H.
    injection H as <- <-.
    destruct (readNumber_advances _ _ _ Hr) as (_ & _ & n & Hn & Hpos).
    split; [exists n; auto|].
    intros Ht. discriminate Ht.
  - (* default *)
    injection H as <- <-.
    split; [exists 0%nat; split; [reflexivity|exact I]|].
    intros Ht. discriminate Ht.
Qed.

(** [NextToken] makes at least one advance, and nothing but advances. *)
Lemma NextToken_advances (l : Lexer) (tok : Token) (l' : Lexer) :
  NextToken l = Ok (tok, l') ->
  exists n, (1 <= n)%nat /\ readChars n l = Ok (tt, l').
Proof.
  unfold NextToken, bind, ret. intros H.
  destruct (skipWhitespace l) as [[[] l1]| |] eqn:Hs; try discriminate H.
  destruct (switch_ch l1) as [[f l2]| |] eqn:Hf; try discriminate H.
  destruct (skipWhitespace_advances _ _ Hs) as (_ & n1 & Hn1).
  destruct (switch_ch_inv _ _ _ Hf) as ((n2 & Hn2 & Hret) & _).
  pose proof (readChars_app _ _ _ _ _ Hn1 Hn2) as H12.
  destruct f as [t|t].
  - injection H as <- <-. exists (n1 + n2)%nat. split; [lia|assumption].
  - rewrite readChar_spec in H.
    destruct (Z.ltb_spec (readPosition l2) 0) as [|Hrp]; [discriminate H|].
    injection H as <- <-.
    exists (n1 + n2 + 1)%nat. split; [lia|].
    exact (readChars_app _ _ _ _ _ H12 (readChars_one _ Hrp)).
Qed.


(** *** The invariant of the cursor *)

Lemma wf_advance (l : Lexer) : 0 <= readPosition l -> wf (advance l).
Proof. intros H. split; simpl; [assumption|reflexivity|reflexivity]. Qed.

Lemma wf_readPosition_nonneg (l : Lexer) : wf l -> 0 <= readPosition l.
Proof. intros [Hp Hr _]. lia. Qed.

Lemma New_spec (inp : string) :
  New inp = Ok (advance {| input := inp; position := 0; readPosition := 0;
                           ch := zero |}).
Proof. unfold New. rewrite readChar_spec. reflexivity. Qed.

Lemma readChars_wf (n : nat) (l l' : Lexer) :
  wf l -> readChars n l = Ok (tt, l') ->
  wf l' /\ input l' = input l /\ position l' = position l + Z.of_nat n.
Proof.
  revert l. induction n as [|n IH]; intros l Hwf H.
  - simpl in H. injection H as <-. repeat split; [apply Hwf..|lia].
  - rewrite readChars_S in H.
    destruct (Z.ltb_spec (readPosition l) 0) as [|Hrp]; [discriminate|].
    destruct (IH _ (wf_advance _ Hrp) H) as (Hwf' & Hi & Hp).
    simpl in Hi, Hp. rewrite (wf_readPosition _ Hwf) in Hp.
    repeat split; [apply Hwf'..|assumption|lia].
Qed.

(** A character that is not the sentinel lies inside the input. *)
Lemma wf_inside (l : Lexer) : wf l -> ch l <> zero -> position l < len (input l).
Proof.
  intros Hwf Hne.
  destruct (Z.lt_ge_cases (position l) (len (input l))) as [|Hge]; [assumption|].
  destruct Hne. rewrite (wf_ch _ Hwf). apply char_at_ge. assumption.
Qed.

Section loops.

Variable cond : ascii -> bool.
Hypothesis cond_zero : cond zero = false.

(** A loop over [readChar] whose condition fails on the sentinel ends
    within the input, with fuel left. *)
Lemma while_total (fuel : nat) :
  forall l, wf l ->
    (Z.to_nat (len (input l) - position l) <= fuel)%nat ->
    exists l', while fuel (fun l => cond (ch l)) readChar l = Ok (tt, l') /\
               position l' <= Z.max (position l) (len (input l)).
Proof.
  induction fuel as [|fuel IH]; intros l Hwf Hfuel; simpl;
    destruct (cond (ch l)) eqn:Hc; try (exists l; split; [reflexivity|lia]).
  - assert (position l < len (input l)).
    { apply wf_inside; [assumption|]. intros Hz. congruence. }
    lia.
  - assert (position l < len (input l)) as Hin.
    { apply wf_inside; [assumption|]. intros Hz. congruence. }
    pose proof (wf_readPosition _ Hwf) as Hr.
    pose proof (wf_position _ Hwf) as Hp.
    rewrite readChar_spec.
    destruct (Z.ltb_spec (readPosition l) 0) as [|Hrp]; [lia|].
    destruct (IH (advance l) (wf_advance _ Hrp)) as (l' & Hw & Hle).
    { simpl. lia. }
    exists l'. split; [assumption|]. simpl in Hle. lia.
Qed.


End loops.

Lemma skipWhitespace_total (l : Lexer) :
  wf l -> exists l', skipWhitespace l = Ok (tt, l').
Proof.
  intros Hwf. pose proof (wf_position _ Hwf).
  destruct (while_total isWhitespace eq_refl (loop_fuel l) l Hwf) as (l' & Hw & _).
  { unfold loop_fuel, len. lia. }
  exists l'. exact Hw.
Qed.



(** *** The fuel of the loops is enough in every state *)

Lemma while_sentinel (cond : ascii -> bool) (fuel : nat) (l : Lexer) :
  cond (ch l) = false ->
  while fuel (fun l => cond (ch l)) readChar l = Ok (tt, l).
Proof. intros Hc. destruct fuel; simpl; rewrite Hc; reflexivity. Qed.

Lemma while_fuel (cond : ascii -> bool) (fuel : nat) :
  cond zero = false ->
  forall l,
    (1 <= fuel)%nat ->
    (0 <= readPosition l ->
     (Z.to_nat (len (input l) - readPosition l) < fuel)%nat) ->
    while fuel (fun l => cond (ch l)) readChar l <> OutOfFuel.
Proof.
  intros Hz. induction fuel as [|fuel IH]; intros l H1 Hfuel; [lia|].
  simpl. destruct (cond (ch l)); [|discriminate].
  rewrite readChar_spec.
  destruct (Z.ltb_spec (readPosition l) 0) as [|Hrp]; [discriminate|].
  specialize (Hfuel Hrp).
  destruct (Z.le_gt_cases (len (input l)) (readPosition l)) as [Hend|Hin].
  - rewrite while_sentinel; [discriminate|].
    simpl. rewrite char_at_ge by assumption. exact Hz.
  - apply IH; simpl; lia.
Qed.

Lemma loop_never_OutOfFuel (cond : ascii -> bool) (l : Lexer) :
  cond zero = false ->
  while (loop_fuel l) (fun l => cond (ch l)) readChar l <> OutOfFuel.
Proof.
  intros Hz. apply while_fuel; [assumption|unfold loop_fuel; lia|].
  unfold loop_fuel, len. lia.
Qed.

Lemma readRun_never_OutOfFuel (cond : ascii -> bool) (l : Lexer) :
  cond zero = false ->
  (let* position0 := gets position in
   let* _ := (fun l => while (loop_fuel l) (fun l => cond (ch l)) readChar l) in
   let* l := gets id in
   lift (slice (input l) position0 (position l))) l <> OutOfFuel.
Proof.
  intros Hz. unfold bind, gets, lift, id.
  pose proof (loop_never_OutOfFuel cond l Hz) as Hw.
  destruct (while _ _ _ l) as [[[] l1]| |]; [|discriminate|congruence].
  unfold slice. destruct (_ || _); discriminate.
Qed.

Lemma switch_ch_never_OutOfFuel (l : Lexer) : switch_ch l <> OutOfFuel.
Proof.
  intros H. cbv beta iota delta [switch_ch bind gets ret] in H.
  repeat (switch_step H; [repeat switch_step H; try discriminate H|]).
  - destruct (readIdentifier l) as [[lit l1]| |] eqn:Hr; try discriminate H.
    exact (readRun_never_OutOfFuel isLetter l eq_refl Hr).
  - destruct (readNumber l) as [[lit l1]| |] eqn:Hr; try discriminate H.
    exact (readRun_never_OutOfFuel isDigit l eq_refl Hr).
  - discriminate H.
Qed.

(** In no state at all does [NextToken] run out of fuel: [OutOfFuel] is
    not a behaviour of the model, and a result other than [Ok] is a
    run-time panic of the program. *)
Lemma NextToken_never_OutOfFuel (l : Lexer) : NextToken l <> OutOfFuel.
Proof.
  unfold NextToken, bind, ret. intros H.
  pose proof (loop_never_OutOfFuel isWhitespace l eq_refl) as Hs.
  fold (skipWhitespace l) in Hs.
  destruct (skipWhitespace l) as [[[] l1]| |]; [|discriminate H|congruence].
  pose proof (switch_ch_never_OutOfFuel l1) as Hf.
  destruct (switch_ch l1) as [[[tok|tok] l2]| |]; try congruence.
  rewrite readChar_spec in H. destruct (_ <? _); discriminate H.
Qed.

(** *** How far a call moves the cursor *)



(** *** Reachable states *)

Lemma reachable_wf (inp : string) (l : Lexer) :
  reachable inp l -> wf l /\ input l = inp.
Proof.
  induction 1 as [l H|l l' _ [IHwf IHi] H].
  - rewrite New_spec in H. injection H as <-.
    split; [apply wf_advance; simpl; lia|reflexivity].
  - apply readChar_Ok in H. destruct H as [Hrp ->].
    split; [apply wf_advance; assumption|assumption].
Qed.

Lemma reachable_readChars (inp : string) (n : nat) :
  forall l l', reachable inp l -> readChars n l = Ok (tt, l') -> reachable inp l'.
Proof.
  induction n as [|n IH]; intros l l' Hr H.
  - simpl in H. injection H as <-. assumption.
  - simpl in H. unfold bind in H.
    destruct (readChar l) as [[[] l1]| |] eqn:H1; try discriminate H.
    apply (IH l1); [|assumption].
    apply (reachable_readChar inp l); assumption.
Qed.

Lemma reachable_NextToken (inp : string) (l : Lexer) (tok : Token) (l' : Lexer) :
  reachable inp l -> NextToken l = Ok (tok, l') -> reachable inp l'.
Proof.
  intros Hr H. destruct (NextToken_advances _ _ _ H) as (n & _ & Hn).
  exact (reachable_readChars inp n l l' Hr Hn).
Qed.

(** *** Successive calls *)







(** *** The sentinel and the end of the input *)




Lemma has_byte_get (c : ascii) (s : string) (n : nat) :
  has_byte c s = false -> String.get n s <> Some c.
Proof.
  revert n. induction s as [|c' s IH]; intros n H; simpl in *.
  - discriminate.
  - apply orb_false_iff in H. destruct H as [Hc Hs].
    destruct n as [|n].
    + intros [= ->]. rewrite Ascii.eqb_refl in Hc. discriminate.
    + apply IH. assumption.
Qed.


End lexer_facts.

(** * The claims of the specification *)

Module lexer_spec.
Import token gostring lexer lexer_props token_facts lexer_facts.
Local Open Scope lexer_scope.

(** ** C1: [EOF] once, [EOF] ever after *)





(** ** C2: the call on the sentinel *)




(** ** C3: one character of lookahead for [=] and [!] *)

(** The [switch] on [=] or [!], by the character that [peekChar] sees. *)
Lemma switch_ch_lookahead (l : Lexer) (two one : TokenType) :
  0 <= readPosition l ->
  (ch l = "="%char /\ two = EQ /\ one = ASSIGN) \/
  (ch l = "!"%char /\ two = NOT_EQ /\ one = BANG) ->
  switch_ch l =
    if Ascii.eqb (char_at (input l) (readPosition l)) "="
    then Ok (Break (newTwoCharToken two (ch l) "="), advance l)
    else Ok (Break (newToken one (ch l)), l).
Proof.
  intros Hrp Hc.
  assert ((readPosition l <? 0) = false) as Hlt by (apply Z.ltb_ge; assumption).
  cbv beta iota delta [switch_ch bind gets ret].
  destruct Hc as [(Hc & -> & ->)|(Hc & -> & ->)]; rewrite !Hc;
    repeat match goal with
    | |- context [Ascii.eqb ?a ?b] =>
        lazymatch a with
        | Ascii _ _ _ _ _ _ _ _ =>
            let v := eval vm_compute in (Ascii.eqb a b) in
            change (Ascii.eqb a b) with v
        end
    end;
    cbv beta iota;
    rewrite peekChar_spec, Hlt; cbv beta iota;
    destruct (Ascii.eqb (char_at (input l) (readPosition l)) "=") eqn:Hp;
    cbv beta iota; try reflexivity;
    rewrite readChar_spec, Hlt; simpl ch;
    apply Ascii.eqb_eq in Hp; rewrite Hp; reflexivity.
Qed.

(** C3: [NextToken] tells [==] from [=] and [!=] from [!] by the
    character after the current one.  The input [==] gives the one token [EQ]
    with text [==] and then [EOF], and [EQ] is not [ASSIGN]; [!=] gives
    [NOT_EQ] with text [!=] and then [EOF]; [!] alone gives [BANG] and [=]
    alone gives [ASSIGN], each with its one character as text; and in every
    reachable state on [=] (on [!]) the call returns the two-character token
    and advances twice when the next character is [=], and the
    one-character token with one advance otherwise. *)
Theorem C3_lookahead :
  lex 2 "==" = Ok [ {| Type_ := EQ; Literal := "==" |}; EOF_token ] /\
  EQ <> ASSIGN /\
  lex 2 "!=" = Ok [ {| Type_ := NOT_EQ; Literal := "!=" |}; EOF_token ] /\
  lex 2 "!" = Ok [ {| Type_ := BANG; Literal := "!" |}; EOF_token ] /\
  lex 2 "=" = Ok [ {| Type_ := ASSIGN; Literal := "=" |}; EOF_token ] /\
  forall (inp : string) (l : Lexer),
    reachable inp l ->
    (ch l = "="%char ->
     NextToken l =
       if Ascii.eqb (char_at inp (readPosition l)) "="
       then Ok ({| Type_ := EQ; Literal := "==" |}, advance (advance l))
       else Ok ({| Type_ := ASSIGN; Literal := "=" |}, advance l)) /\
    (ch l = "!"%char ->
     NextToken l =
       if Ascii.eqb (char_at inp (readPosition l)) "="
       then Ok ({| Type_ := NOT_EQ; Literal := "!=" |}, advance (advance l))
       else Ok ({| Type_ := BANG; Literal := "!" |}, advance l)).
Proof.
  repeat (split; [first [reflexivity|discriminate]|]).
  intros inp l Hr. destruct (reachable_wf _ _ Hr) as [Hwf Hi].
  pose proof (wf_readPosition_nonneg _ Hwf) as Hrp.
  assert ((readPosition l <? 0) = false) as Hlt by (apply Z.ltb_ge; assumption).
  assert ((readPosition l + 1 <? 0) = false) as Hlt' by (apply Z.ltb_ge; lia).
  split; intros Hc; unfold NextToken, bind, ret, skipWhitespace;
    (rewrite while_sentinel by (rewrite Hc; reflexivity));
    [ rewrite (switch_ch_lookahead l EQ ASSIGN) by auto
    | rewrite (switch_ch_lookahead l NOT_EQ BANG) by auto ];
    rewrite Hi, Hc;
    destruct (Ascii.eqb (char_at inp (readPosition l)) "=");
    rewrite readChar_spec; simpl readPosition; rewrite ?Hlt, ?Hlt';
    reflexivity.
Qed.

Lemma C3_lookahead_witness :
  NextToken {| input := "=="; position := 0; readPosition := 1; ch := "=" |} =
    Ok ({| Type_ := EQ; Literal := "==" |},
        {| input := "=="; position := 2; readPosition := 3; ch := zero |}).
Proof.
  refine (proj1 (proj2 (proj2 (proj2 (proj2 (proj2 C3_lookahead))))
                  "==" {| input := "=="; position := 0; readPosition := 1;
                          ch := "=" |} _) _).
  - apply reachable_New. reflexivity.
  - reflexivity.
Defined.

(** ** C4: keywords *)

(** C4: [LookupIdent] gives [FUNCTION] for the string [fn] and for no
    other, [LET] for the string [let] and for no other, and [IDENT] for
    every other string, be it a keyword in another case or a keyword with
    more characters around it; the input [fn] is lexed as a [FUNCTION]
    token and the input [fnx] as the [IDENT] token with text [fnx]. *)
Theorem C4_keywords_exact :
  (forall s : string, LookupIdent s = FUNCTION <-> s = "fn") /\
  (forall s : string, LookupIdent s = LET <-> s = "let") /\
  (forall s : string, s <> "fn" -> s <> "let" -> LookupIdent s = IDENT) /\
  LookupIdent "Fn" = IDENT /\ LookupIdent "LET" = IDENT /\
  LookupIdent "fnx" = IDENT /\ LookupIdent "xlet" = IDENT /\
  LookupIdent "f" = IDENT /\ LookupIdent "" = IDENT /\
  lex 2 "fn" = Ok [ {| Type_ := FUNCTION; Literal := "fn" |}; EOF_token ] /\
  lex 2 "fnx" = Ok [ {| Type_ := IDENT; Literal := "fnx" |}; EOF_token ].
Proof.
  split; [|split; [|split]].
  - intros s. rewrite LookupIdent_cases.
    repeat case_decide; subst; split; intros Heq; congruence || discriminate Heq.
  - intros s. rewrite LookupIdent_cases.
    repeat case_decide; subst; split; intros Heq; congruence || discriminate Heq.
  - intros s Hfn Hlet. rewrite LookupIdent_cases.
    repeat case_decide; congruence.
  - repeat split; vm_compute; reflexivity.
Qed.

Lemma C4_keywords_exact_witness : LookupIdent "letter" = IDENT.
Proof.
  apply (proj1 (proj2 (proj2 C4_keywords_exact)) "letter"); discriminate.
Defined.

(** ** C5: a [let] statement *)

(** C5: on the input [let five = 5;] the calls of [NextToken] return, in
    this order, [LET] with text [let], [IDENT] with text [five], [ASSIGN]
    with text [=], [INT] with text [5], [SEMICOLON] with text [;] and [EOF]
    with empty text: the blanks give no token. *)
Theorem C5_let_statement :
  lex 6 "let five = 5;" =
    Ok [ {| Type_ := LET; Literal := "let" |};
         {| Type_ := IDENT; Literal := "five" |};
         {| Type_ := ASSIGN; Literal := "=" |};
         {| Type_ := INT; Literal := "5" |};
         {| Type_ := SEMICOLON; Literal := ";" |};
         {| Type_ := EOF; Literal := "" |} ].
Proof. vm_compute. reflexivity. Qed.

(** ** C6: the sentinel and the end of the input *)




(** ** C7: [readPosition = position + 1], and nothing but [readChar]
    moves the cursor *)



(** ** C8: no failure, and [ILLEGAL] for the other bytes *)



Lemma string_of_byte_ascii (c : ascii) :
  (N_of_ascii c < 128)%N -> string_of_byte c = String c "".
Proof.
  intros H. unfold string_of_byte.
  destruct (N.ltb_spec (N_of_ascii c) 128); [reflexivity|lia].
Qed.





(** ** C9: a 0 byte inside the input *)



(** ** C10: every call advances *)




(** ** The size of the cursor fields *)


End lexer_spec.

(** * Further properties of the lexer *)

Module lexer_extra.
Import token gostring lexer lexer_props lexer_more_props.
Import token_facts lexer_facts lexer_spec.
Local Open Scope lexer_scope.

(** ** Slices of the input *)

Lemma substring_0 (s : string) (n : nat) : String.substring n 0 s = "".
Proof.
  revert n. induction s as [|c s IH]; intros [|n]; simpl; auto.
Qed.

Lemma substring_cons (s : string) (n m : nat) (c : ascii) :
  String.get n s = Some c ->
  String.substring n (S m) s = String c (String.substring (S n) m s).
Proof.
  revert n. induction s as [|c' s IH]; intros n H; simpl in H.
  - discriminate H.
  - destruct n as [|n].
    + injection H as ->. reflexivity.
    + simpl. rewrite (IH n H). reflexivity.
Qed.

Lemma char_at_get (s : string) (n : nat) :
  (n < String.length s)%nat -> String.get n s = Some (char_at s (Z.of_nat n)).
Proof.
  intros H. unfold char_at.
  destruct (Z.ltb_spec (Z.of_nat n) 0); [lia|].
  rewrite Nat2Z.id. destruct (get_lt s n H) as [c ->]. reflexivity.
Qed.

(** A slice, byte by byte. *)
Lemma slice_cons (s : string) (lo hi : Z) :
  0 <= lo < hi -> hi <= len s ->
  exists rest, slice s (lo + 1) hi = Ok rest /\
               slice s lo hi = Ok (String (char_at s lo) rest).
Proof.
  intros Hlo Hhi. unfold slice.
  destruct (Z.ltb_spec lo 0); [lia|].
  destruct (Z.ltb_spec hi lo); [lia|].
  destruct (Z.ltb_spec (len s) hi); [lia|].
  destruct (Z.ltb_spec (lo + 1) 0); [lia|].
  destruct (Z.ltb_spec hi (lo + 1)); [lia|].
  simpl. eexists. split; [reflexivity|]. f_equal.
  replace (Z.to_nat (hi - lo)) with (S (Z.to_nat (hi - (lo + 1)))) by lia.
  replace (Z.to_nat (lo + 1)) with (S (Z.to_nat lo)) by lia.
  rewrite (substring_cons s (Z.to_nat lo) _ (char_at s lo)); [reflexivity|].
  rewrite char_at_get by (unfold len in *; lia).
  rewrite Z2Nat.id by lia. reflexivity.
Qed.

Lemma slice_empty (s : string) (lo : Z) :
  0 <= lo <= len s -> slice s lo lo = Ok "".
Proof.
  intros H. unfold slice.
  destruct (Z.ltb_spec lo 0); [lia|].
  destruct (Z.ltb_spec lo lo); [lia|].
  destruct (Z.ltb_spec (len s) lo); [lia|].
  simpl. rewrite Z.sub_diag. simpl. rewrite substring_0. reflexivity.
Qed.

Lemma slice_bounds (s : string) (lo hi : Z) (lit : string) :
  slice s lo hi = Ok lit -> 0 <= lo <= hi /\ hi <= len s.
Proof.
  unfold slice.
  destruct (Z.ltb_spec lo 0); [discriminate|].
  destruct (Z.ltb_spec hi lo); [discriminate|].
  destruct (Z.ltb_spec (len s) hi); [discriminate|].
  intros _. lia.
Qed.

(** A slice by induction on its length. *)
Lemma slice_ind (s : string) (P : Z -> string -> Prop) (hi : Z) :
  hi <= len s ->
  P hi "" ->
  (forall lo rest, 0 <= lo < hi -> slice s (lo + 1) hi = Ok rest ->
                   P (lo + 1) rest -> P lo (String (char_at s lo) rest)) ->
  forall lo lit, slice s lo hi = Ok lit -> P lo lit.
Proof.
  intros Hhi H0 HS lo lit H.
  destruct (slice_bounds _ _ _ _ H) as [Hlo _].
  remember (Z.to_nat (hi - lo)) as d eqn:Hd.
  revert lo lit H Hlo Hd. induction d as [|d IH]; intros lo lit H Hlo Hd.
  - assert (lo = hi) as -> by lia.
    rewrite slice_empty in H by lia. injection H as <-. assumption.
  - destruct (slice_cons s lo hi) as (rest & Hrest & Hlit); [lia|lia|].
    rewrite Hlit in H. injection H as <-.
    apply HS; [lia|assumption|].
    apply IH; [assumption|lia|lia].
Qed.

Lemma slice_length (s : string) (lo hi : Z) (lit : string) :
  slice s lo hi = Ok lit -> Z.of_nat (String.length lit) = hi - lo.
Proof.
  intros H. destruct (slice_bounds _ _ _ _ H) as [_ Hhi].
  revert lo lit H.
  apply (slice_ind s (fun lo lit => Z.of_nat (String.length lit) = hi - lo) hi);
    [assumption|simpl; lia|].
  intros lo rest Hlo _ IH. simpl String.length. lia.
Qed.

Lemma slice_all_bytes (f : ascii -> bool) (s : string) (lo hi : Z) (lit : string) :
  slice s lo hi = Ok lit ->
  (forall i, lo <= i < hi -> f (char_at s i) = true) ->
  all_bytes f lit = true.
Proof.
  intros H. destruct (slice_bounds _ _ _ _ H) as [_ Hhi].
  revert lo lit H.
  apply (slice_ind s (fun lo lit =>
           (forall i, lo <= i < hi -> f (char_at s i) = true) ->
           all_bytes f lit = true) hi); [assumption|reflexivity|].
  intros lo rest Hlo _ IH Hf. simpl.
  rewrite Hf by lia. apply IH. intros i Hi. apply Hf. lia.
Qed.


(** ** The characters of a run *)

(** The characters that a loop over [readChar] passes all satisfy its
    condition. *)
Lemma while_run (cond : ascii -> bool) (fuel : nat) :
  forall l l', wf l ->
    while fuel (fun l => cond (ch l)) readChar l = Ok (tt, l') ->
    forall i, position l <= i < position l' ->
              cond (char_at (input l) i) = true.
Proof.
  induction fuel as [|fuel IH]; intros l l' Hwf H i Hi; simpl in H;
    destruct (cond (ch l)) eqn:Hc; try discriminate H;
    try (injection H as <-; lia).
  rewrite readChar_spec in H.
  pose proof (wf_readPosition _ Hwf) as Hr.
  destruct (Z.ltb_spec (readPosition l) 0) as [|Hrp]; [discriminate H|].
  destruct (Z.eq_dec i (position l)) as [->|Hne].
  - rewrite <- (wf_ch _ Hwf). assumption.
  - apply (IH (advance l) l' (wf_advance _ Hrp) H). simpl. lia.
Qed.

(** ** The branches of the [switch] *)

Ltac in_kinds := repeat first [left; reflexivity | right].

Ltac solve_one_char l :=
  match goal with
  | Hc : Ascii.eqb (ch l) ?x = true |- _ =>
      apply Ascii.eqb_eq in Hc;
      apply case_one_char;
      [ rewrite Hc; reflexivity
      | in_kinds
      | first [ intros _; assumption
              | rewrite Hc; intros Hx; discriminate Hx ] ]
  end.

Ltac solve_two_char l :=
  match goal with
  | Hc : Ascii.eqb (ch l) ?x = true,
    Hp : Ascii.eqb (char_at (input l) (readPosition l)) _ = true |- _ =>
      apply Ascii.eqb_eq in Hc; apply Ascii.eqb_eq in Hp;
      simpl ch; rewrite Hp;
      apply case_two_char;
      [ first [ left; split; [assumption|reflexivity]
              | right; split; [assumption|reflexivity] ]
      | assumption ]
  end.

Lemma switch_ch_case (l : Lexer) (f : flow) (l' : Lexer) :
  switch_ch l = Ok (f, l') -> switch_case l f l'.
Proof.
  intros H. cbv beta iota delta [switch_ch bind gets ret] in H.
  repeat (switch_step H;
    [ repeat switch_step H;
      try (injection H as <- <-;
           first [ solve_two_char l | solve_one_char l ])
    | ]).
  - injection H as <- <-. apply case_sentinel. apply Ascii.eqb_eq. assumption.
  - destruct (readIdentifier l) as [[lit l1]| |] eqn:Hr; try discriminate H.
    injection H as <- <-. apply case_identifier; assumption.
  - destruct (readNumber l) as [[lit l1]| |] eqn:Hr; try discriminate H.
    injection H as <- <-. apply case_number; assumption.
  - injection H as <- <-. apply case_default; try assumption.
    + unfold operator_chars. simpl existsb.
      repeat match goal with
             | Hf : Ascii.eqb (ch l) _ = false |- _ => rewrite Hf; clear Hf
             end.
      reflexivity.
    + apply Ascii.eqb_neq. assumption.
Qed.

(** The way of a call of [NextToken]: the whitespace is skipped, a branch
    of the [switch] is taken, and one advance follows unless the branch
    returns. *)
Lemma NextToken_case (inp : string) (l : Lexer) (tok : Token) (l' : Lexer) :
  reachable inp l -> NextToken l = Ok (tok, l') ->
  exists l1 f l2,
    skipWhitespace l = Ok (tt, l1) /\
    reachable inp l1 /\ isWhitespace (ch l1) = false /\
    switch_case l1 f l2 /\ reachable inp l2 /\
    tok = flow_tok f /\ l' = after_switch f l2.
Proof.
  intros Hr H. unfold NextToken, bind, ret in H.
  destruct (skipWhitespace l) as [[[] l1]| |] eqn:Hs; try discriminate H.
  destruct (switch_ch l1) as [[f l2]| |] eqn:Hf; try discriminate H.
  destruct (skipWhitespace_advances _ _ Hs) as (Hws & n1 & Hn1).
  destruct (switch_ch_inv _ _ _ Hf) as ((n2 & Hn2 & _) & _).
  pose proof (reachable_readChars _ _ _ _ Hr Hn1) as Hr1.
  pose proof (reachable_readChars _ _ _ _ Hr1 Hn2) as Hr2.
  exists l1, f, l2.
  repeat (split; [first [reflexivity|assumption|exact (switch_ch_case _ _ _ Hf)]|]).
  destruct f as [t|t].
  - injection H as <- <-. split; reflexivity.
  - destruct (readChar l2) as [[[] l3]| |] eqn:Hrc; try discriminate H.
    injection H as <- <-.
    apply readChar_Ok in Hrc. destruct Hrc as [_ ->]. split; reflexivity.
Qed.

(** ** The classes of characters *)

Lemma class_count_one (c : ascii) : class_count c = 1%nat.
Proof. destruct c as [[] [] [] [] [] [] [] []]; vm_compute; reflexivity. Qed.

Lemma class_of (c : ascii) :
  isWhitespace c = false ->
  (Ascii.eqb c zero = true /\ isLetter c = false /\ isDigit c = false /\
   existsb (Ascii.eqb c) operator_chars = false /\ unrecognized c = false) \/
  (Ascii.eqb c zero = false /\ isLetter c = true /\ isDigit c = false /\
   existsb (Ascii.eqb c) operator_chars = false /\ unrecognized c = false) \/
  (Ascii.eqb c zero = false /\ isLetter c = false /\ isDigit c = true /\
   existsb (Ascii.eqb c) operator_chars = false /\ unrecognized c = false) \/
  (Ascii.eqb c zero = false /\ isLetter c = false /\ isDigit c = false /\
   existsb (Ascii.eqb c) operator_chars = true /\ unrecognized c = false) \/
  (Ascii.eqb c zero = false /\ isLetter c = false /\ isDigit c = false /\
   existsb (Ascii.eqb c) operator_chars = false /\ unrecognized c = true).
Proof.
  intros Hws. pose proof (class_count_one c) as H. unfold class_count in H.
  rewrite Hws in H.
  destruct (Ascii.eqb c zero), (isLetter c), (isDigit c),
    (existsb (Ascii.eqb c) operator_chars), (unrecognized c);
    simpl in H; try lia; tauto.
Qed.

Lemma operator_ascii (c : ascii) :
  existsb (Ascii.eqb c) operator_chars = true -> (N_of_ascii c < 128)%N.
Proof.
  destruct c as [[] [] [] [] [] [] [] []]; intros H; vm_compute in H;
    first [discriminate H | reflexivity].
Qed.

Lemma string_of_byte_not_empty (c : ascii) : string_of_byte c <> "".
Proof. unfold string_of_byte. destruct (_ <? _)%N; discriminate. Qed.

(** ** The kinds of the tokens *)

Lemma single_kinds_other (K : TokenType) :
  In K single_kinds ->
  K <> EOF /\ K <> ILLEGAL /\ K <> INT /\ ~ In K word_kinds /\
  K <> EQ /\ K <> NOT_EQ.
Proof.
  unfold single_kinds, word_kinds. simpl. intros H.
  repeat (destruct H as [<-|H]; [repeat split; try discriminate;
                                 intros [Hx|[Hx|[Hx|[]]]]; discriminate Hx|]).
  destruct H.
Qed.

Lemma LookupIdent_word (s : string) : In (LookupIdent s) word_kinds.
Proof.
  rewrite LookupIdent_cases. unfold word_kinds.
  repeat case_decide; simpl; auto.
Qed.

Lemma word_kinds_other (K : TokenType) :
  In K word_kinds ->
  K <> EOF /\ K <> ILLEGAL /\ K <> INT /\ K <> EQ /\ K <> NOT_EQ.
Proof.
  unfold word_kinds. simpl. intros [<-|[<-|[<-|[]]]]; repeat split; discriminate.
Qed.

(** ** The text of a run *)

(** [readIdentifier] and [readNumber], entered on a character of the run:
    the text is not empty, all of its bytes are of the run, and the
    character after it is not. *)
Lemma readRun_text (cond : ascii -> bool) (l : Lexer) (lit : string) (l' : Lexer) :
  wf l -> cond (ch l) = true ->
  (let* position0 := gets position in
   let* _ := (fun l => while (loop_fuel l) (fun l => cond (ch l)) readChar l) in
   let* l := gets id in
   lift (slice (input l) position0 (position l))) l = Ok (lit, l') ->
  lit <> "" /\ all_bytes cond lit = true /\ cond (ch l') = false /\
  position l < position l' /\
  slice (input l) (position l) (position l') = Ok lit.
Proof.
  intros Hwf Hc H.
  destruct (readRun_advances cond _ _ _ H) as (Hc' & Hsl & n & Hn & Hn1).
  specialize (Hn1 Hc).
  destruct (readChars_wf _ _ _ Hwf Hn) as (_ & Hi & Hp).
  rewrite Hi in Hsl.
  unfold bind, gets, lift, id in H.
  destruct (while _ _ _ l) as [[[] l1]| |] eqn:Hw; try discriminate H.
  destruct (slice _ _ _) as [s0| |]; try discriminate H.
  injection H as _ <-.
  pose proof (while_run cond _ _ _ Hwf Hw) as Hrun.
  pose proof (slice_length _ _ _ _ Hsl) as Hlen.
  repeat split; try assumption; try lia.
  - intros ->. simpl in Hlen. lia.
  - exact (slice_all_bytes cond _ _ _ _ Hsl Hrun).
Qed.

(** ** X1: the end of the token stream *)




(** ** X2: the text of a token is a slice of the input *)

Lemma slice_one (s : string) (i : Z) :
  0 <= i < len s -> slice s i (i + 1) = Ok (String (char_at s i) "").
Proof.
  intros Hi. destruct (slice_cons s i (i + 1)) as (rest & Hr & ->); [lia..|].
  rewrite slice_empty in Hr by lia. injection Hr as <-. reflexivity.
Qed.

Lemma slice_two (s : string) (i : Z) :
  0 <= i -> i + 1 < len s ->
  slice s i (i + 2) =
    Ok (String (char_at s i) (String (char_at s (i + 1)) "")).
Proof.
  intros Hi Hlen.
  destruct (slice_cons s i (i + 2)) as (rest & Hr & ->); [lia..|].
  replace (i + 2) with (i + 1 + 1) in Hr by lia.
  rewrite slice_one in Hr by lia. injection Hr as <-. reflexivity.
Qed.

Lemma char_inside (s : string) (i : Z) :
  char_at s i <> zero -> i < len s.
Proof.
  intros H. destruct (Z.lt_ge_cases i (len s)) as [|Hge]; [assumption|].
  destruct H. apply char_at_ge. assumption.
Qed.

(** X2: the text of every token but [EOF] is the slice of the input from
    the position after the skipped whitespace to the position where the
    call leaves the cursor, and the cursor has moved by the length of the
    text.  For an [ILLEGAL] token this holds when the byte is below 0x80. *)
Theorem token_text_is_source_slice
    (inp : string) (l l1 : Lexer) (tok : Token) (l' : Lexer) :
  reachable inp l ->
  skipWhitespace l = Ok (tt, l1) ->
  NextToken l = Ok (tok, l') ->
  Type_ tok <> EOF ->
  (Type_ tok = ILLEGAL -> (N_of_ascii (ch l1) < 128)%N) ->
  slice inp (position l1) (position l') = Ok (Literal tok) /\
  position l' = position l1 + Z.of_nat (String.length (Literal tok)).
Proof.
  intros Hr Hs Hn Hne Hill.
  destruct (NextToken_case _ _ _ _ Hr Hn)
    as (l1' & f & l2 & Hs' & Hr1 & Hws & Hcase & Hr2 & -> & ->).
  rewrite Hs in Hs'. injection Hs' as <-.
  destruct (reachable_wf _ _ Hr1) as [Hwf1 Hi1].
  pose proof (wf_position _ Hwf1) as Hp1.
  pose proof (wf_readPosition _ Hwf1) as Hrd1.
  pose proof (wf_ch _ Hwf1) as Hc1. rewrite Hi1 in Hc1.
  assert (forall hi lit want, slice inp (position l1) hi = Ok lit ->
            lit = want ->
            slice inp (position l1) hi = Ok want /\
            hi = position l1 + Z.of_nat (String.length want)) as Hfin.
  { intros hi lit want Hsl <-. split; [assumption|].
    pose proof (slice_length _ _ _ _ Hsl). lia. }
  revert Hne Hill Hr2.
  destruct Hcase as [K Hop HK Hpk|K HK Hpk|Hz|lit l3 Hl Hrd|lit l3 Hd Hrd|Hop Hnz Hl Hd];
    simpl; intros Hne Hill Hr2.
  - assert (ch l1 <> zero) as Hnz.
    { destruct (class_of (ch l1) Hws) as [C|[C|[C|[C|C]]]];
        destruct C as (Cz & _ & _ & Co & _); try congruence.
      apply Ascii.eqb_neq. assumption. }
    pose proof (wf_inside _ Hwf1 Hnz) as Hin. rewrite Hi1 in Hin.
    apply (Hfin _ (String (char_at inp (position l1)) "")).
    + rewrite Hrd1. apply slice_one. lia.
    + rewrite string_of_byte_ascii by (apply operator_ascii; assumption).
      congruence.
  - assert (position l1 + 1 < len inp) as Hin.
    { rewrite <- Hrd1, <- Hi1. apply char_inside. rewrite Hpk. discriminate. }
    apply (Hfin _ (String (char_at inp (position l1))
                     (String (char_at inp (position l1 + 1)) ""))).
    + rewrite Hrd1.
      replace (position l1 + 1 + 1) with (position l1 + 2) by lia.
      apply slice_two; lia.
    + rewrite <- Hc1, <- Hrd1, <- Hi1, Hpk.
      destruct HK as [[-> _]|[-> _]]; reflexivity.
  - destruct Hne. reflexivity.
  - destruct (readIdentifier_advances _ _ _ Hrd) as (_ & Hsl & _).
    destruct (reachable_wf _ _ Hr2) as [_ Hi2]. rewrite Hi2 in Hsl.
    exact (Hfin _ lit _ Hsl eq_refl).
  - destruct (readNumber_advances _ _ _ Hrd) as (_ & Hsl & _).
    destruct (reachable_wf _ _ Hr2) as [_ Hi2]. rewrite Hi2 in Hsl.
    exact (Hfin _ lit _ Hsl eq_refl).
  - pose proof (wf_inside _ Hwf1 Hnz) as Hin. rewrite Hi1 in Hin.
    apply (Hfin _ (String (char_at inp (position l1)) "")).
    + rewrite Hrd1. apply slice_one. lia.
    + rewrite string_of_byte_ascii by (apply Hill; reflexivity).
      congruence.
Qed.

Lemma token_text_is_source_slice_witness :
  slice " !=x" 1 3 = Ok "!=" /\ 3 = 1 + Z.of_nat (String.length "!=").
Proof.
  refine (token_text_is_source_slice " !=x"
            {| input := " !=x"; position := 0; readPosition := 1; ch := " " |}
            {| input := " !=x"; position := 1; readPosition := 2; ch := "!" |}
            {| Type_ := NOT_EQ; Literal := "!=" |}
            {| input := " !=x"; position := 3; readPosition := 4; ch := "x" |}
            _ _ _ _ _).
  - apply reachable_New. reflexivity.
  - reflexivity.
  - reflexivity.
  - discriminate.
  - discriminate.
Defined.

(** ** X3: what [skipWhitespace] skips *)

(** X3: in every reachable state [skipWhitespace] returns; the bytes it
    passes are all whitespace (space, tab, line feed or carriage return),
    the character it stops on is not, it never moves the cursor back, and
    a second [skipWhitespace] right after it changes nothing. *)
Theorem skipWhitespace_maximal (inp : string) (l : Lexer) :
  reachable inp l ->
  exists l1,
    skipWhitespace l = Ok (tt, l1) /\
    reachable inp l1 /\
    position l <= position l1 /\
    (forall i, position l <= i < position l1 ->
               isWhitespace (char_at inp i) = true) /\
    isWhitespace (ch l1) = false /\
    skipWhitespace l1 = Ok (tt, l1).
Proof.
  intros Hr. destruct (reachable_wf _ _ Hr) as [Hwf Hi].
  destruct (skipWhitespace_total l Hwf) as (l1 & Hs).
  destruct (skipWhitespace_advances _ _ Hs) as (Hws & n & Hn).
  destruct (readChars_wf _ _ _ Hwf Hn) as (_ & _ & Hp).
  exists l1. split; [assumption|].
  split; [exact (reachable_readChars _ _ _ _ Hr Hn)|].
  split; [lia|]. split; [|split; [assumption|]].
  - rewrite <- Hi. exact (while_run isWhitespace _ _ _ Hwf Hs).
  - unfold skipWhitespace. apply while_sentinel. assumption.
Qed.

Lemma skipWhitespace_maximal_witness :
  exists l1,
    skipWhitespace {| input := "  x"; position := 0; readPosition := 1; ch := " " |}
      = Ok (tt, l1) /\
    reachable "  x" l1 /\
    0 <= position l1 /\
    (forall i, 0 <= i < position l1 -> isWhitespace (char_at "  x" i) = true) /\
    isWhitespace (ch l1) = false /\
    skipWhitespace l1 = Ok (tt, l1).
Proof.
  apply (skipWhitespace_maximal "  x"
           {| input := "  x"; position := 0; readPosition := 1; ch := " " |}).
  apply reachable_New. reflexivity.
Defined.

(** ** X4, X5: identifiers and integers are maximal runs *)

(** X4: a token of kind [IDENT], [FUNCTION] or [LET] has a text that is
    not empty and is made of letters and underscores only, the character
    that the call leaves the cursor on is no letter and no underscore, and
    the kind is what [LookupIdent] gives for the text. *)
Theorem word_token_is_maximal_run
    (inp : string) (l : Lexer) (tok : Token) (l' : Lexer) :
  reachable inp l ->
  NextToken l = Ok (tok, l') ->
  In (Type_ tok) word_kinds ->
  Literal tok <> "" /\
  all_bytes isLetter (Literal tok) = true /\
  isLetter (ch l') = false /\
  Type_ tok = LookupIdent (Literal tok).
Proof.
  intros Hr Hn Hk.
  destruct (NextToken_case _ _ _ _ Hr Hn)
    as (l1 & f & l2 & Hs & Hr1 & Hws & Hcase & Hr2 & -> & ->).
  destruct (reachable_wf _ _ Hr1) as [Hwf1 _].
  revert Hk.
  destruct Hcase as [K Hop HK Hpk|K HK Hpk|Hz|lit l3 Hl Hrd|lit l3 Hd Hrd|Hop Hnz Hl Hd];
    simpl; intros Hk.
  - destruct (single_kinds_other K HK) as (_ & _ & _ & Hw & _). contradiction.
  - destruct (word_kinds_other K Hk) as (_ & _ & _ & He & Hne).
    destruct HK as [[_ ->]|[_ ->]]; congruence.
  - destruct (word_kinds_other _ Hk) as (He & _). destruct He. reflexivity.
  - destruct (readRun_text isLetter _ _ _ Hwf1 Hl Hrd) as (H1 & H2 & H3 & _).
    auto.
  - destruct (word_kinds_other _ Hk) as (_ & _ & He & _). destruct He. reflexivity.
  - destruct (word_kinds_other _ Hk) as (_ & He & _). destruct He. reflexivity.
Qed.

Lemma word_token_is_maximal_run_witness :
  Literal {| Type_ := IDENT; Literal := "ab_c" |} <> "" /\
  all_bytes isLetter (Literal {| Type_ := IDENT; Literal := "ab_c" |}) = true /\
  isLetter (ch {| input := "ab_c1"; position := 4; readPosition := 5; ch := "1" |})
    = false /\
  Type_ {| Type_ := IDENT; Literal := "ab_c" |}
    = LookupIdent (Literal {| Type_ := IDENT; Literal := "ab_c" |}).
Proof.
  apply (word_token_is_maximal_run "ab_c1"
           {| input := "ab_c1"; position := 0; readPosition := 1; ch := "a" |}).
  - apply reachable_New. reflexivity.
  - reflexivity.
  - left. reflexivity.
Defined.

(** X5: a token of kind [INT] has a text that is not empty and is made of
    the digits 0 to 9 only, and the character that the call leaves the
    cursor on is no digit. *)
Theorem int_token_is_maximal_run
    (inp : string) (l : Lexer) (tok : Token) (l' : Lexer) :
  reachable inp l ->
  NextToken l = Ok (tok, l') ->
  Type_ tok = INT ->
  Literal tok <> "" /\
  all_bytes isDigit (Literal tok) = true /\
  isDigit (ch l') = false.
Proof.
  intros Hr Hn Hk.
  destruct (NextToken_case _ _ _ _ Hr Hn)
    as (l1 & f & l2 & Hs & Hr1 & Hws & Hcase & Hr2 & -> & ->).
  destruct (reachable_wf _ _ Hr1) as [Hwf1 _].
  revert Hk.
  destruct Hcase as [K Hop HK Hpk|K HK Hpk|Hz|lit l3 Hl Hrd|lit l3 Hd Hrd|Hop Hnz Hl Hd];
    simpl; intros Hk.
  - destruct (single_kinds_other K HK) as (_ & _ & He & _). contradiction.
  - destruct HK as [[_ ->]|[_ ->]]; discriminate Hk.
  - discriminate Hk.
  - destruct (word_kinds_other _ (LookupIdent_word lit)) as (_ & _ & He & _).
    contradiction.
  - destruct (readRun_text isDigit _ _ _ Hwf1 Hd Hrd) as (H1 & H2 & H3 & _).
    auto.
  - discriminate Hk.
Qed.

Lemma int_token_is_maximal_run_witness :
  Literal {| Type_ := INT; Literal := "10" |} <> "" /\
  all_bytes isDigit (Literal {| Type_ := INT; Literal := "10" |}) = true /\
  isDigit (ch {| input := "10x"; position := 2; readPosition := 3; ch := "x" |})
    = false.
Proof.
  apply (int_token_is_maximal_run "10x"
           {| input := "10x"; position := 0; readPosition := 1; ch := "1" |}).
  - apply reachable_New. reflexivity.
  - reflexivity.
  - reflexivity.
Defined.

(** ** X6: the text of the keyword tokens *)

Lemma string_of_byte_no_keyword (c : ascii) :
  isLetter c = false ->
  string_of_byte c <> "fn" /\ string_of_byte c <> "let".
Proof.
  destruct c as [[] [] [] [] [] [] [] []]; intros H; vm_compute in H;
    first [discriminate H | split; vm_compute; discriminate].
Qed.

(** X6: a token has kind [FUNCTION] if and only if its text is [fn], and
    kind [LET] if and only if its text is [let]: no other branch of
    [NextToken] gives these kinds or these texts. *)
Theorem keyword_token_spelling
    (inp : string) (l : Lexer) (tok : Token) (l' : Lexer) :
  reachable inp l ->
  NextToken l = Ok (tok, l') ->
  (Type_ tok = FUNCTION <-> Literal tok = "fn") /\
  (Type_ tok = LET <-> Literal tok = "let").
Proof.
  intros Hr Hn.
  destruct (NextToken_case _ _ _ _ Hr Hn)
    as (l1 & f & l2 & Hs & Hr1 & Hws & Hcase & Hr2 & -> & ->).
  destruct (reachable_wf _ _ Hr1) as [Hwf1 _].
  assert (forall K lit, K <> FUNCTION -> K <> LET ->
                        lit <> "fn" -> lit <> "let" ->
            (K = FUNCTION <-> lit = "fn") /\ (K = LET <-> lit = "let"))
    as Hno by (intros; tauto).
  destruct Hcase as [K Hop HK Hpk|K HK Hpk|Hz|lit l3 Hl Hrd|lit l3 Hd Hrd|Hop Hnz Hl Hd];
    simpl.
  - destruct (single_kinds_other K HK) as (_ & _ & _ & Hw & _).
    assert (isLetter (ch l1) = false) as Hl.
    { destruct (class_of (ch l1) Hws) as [C|[C|[C|[C|C]]]];
        destruct C as (_ & Cl & _ & Co & _); congruence. }
    destruct (string_of_byte_no_keyword _ Hl).
    apply Hno; try assumption; intros ->; apply Hw; simpl; auto.
  - destruct HK as [[-> ->]|[-> ->]]; apply Hno; discriminate.
  - apply Hno; discriminate.
  - rewrite LookupIdent_cases.
    repeat case_decide; subst; split; split; intros Hx;
      congruence || discriminate Hx.
  - destruct (readRun_text isDigit _ _ _ Hwf1 Hd Hrd) as (_ & Hall & _).
    apply Hno; try discriminate; intros ->; discriminate Hall.
  - destruct (string_of_byte_no_keyword _ Hl).
    apply Hno; try assumption; discriminate.
Qed.

Lemma keyword_token_spelling_witness :
  (FUNCTION = FUNCTION <-> "fn" = "fn") /\ (FUNCTION = LET <-> "fn" = "let").
Proof.
  apply (keyword_token_spelling "fn(x)"
           {| input := "fn(x)"; position := 0; readPosition := 1; ch := "f" |}
           {| Type_ := FUNCTION; Literal := "fn" |}
           {| input := "fn(x)"; position := 2; readPosition := 3; ch := "(" |}).
  - apply reachable_New. reflexivity.
  - reflexivity.
Defined.

(** ** X7: the kind of a token and the character it starts with *)

Lemma operator_kinds_other (K : TokenType) :
  In K operator_kinds ->
  K <> EOF /\ K <> ILLEGAL /\ K <> INT /\ ~ In K word_kinds.
Proof.
  unfold operator_kinds. intros H. apply in_app_or in H.
  destruct H as [H|[<-|[<-|[]]]].
  - destruct (single_kinds_other K H) as (H1 & H2 & H3 & H4 & _). auto.
  - repeat split; try discriminate.
    intros [Hx|[Hx|[Hx|[]]]]; discriminate Hx.
  - repeat split; try discriminate.
    intros [Hx|[Hx|[Hx|[]]]]; discriminate Hx.
Qed.

(** The kind of the token of each branch, and the class of the character
    the branch is taken on. *)
Lemma switch_case_kind (l : Lexer) (f : flow) (l' : Lexer) :
  isWhitespace (ch l) = false ->
  switch_case l f l' ->
  (Type_ (flow_tok f) = EOF /\ ch l = zero) \/
  (In (Type_ (flow_tok f)) word_kinds /\ isLetter (ch l) = true) \/
  (Type_ (flow_tok f) = INT /\ isDigit (ch l) = true) \/
  (Type_ (flow_tok f) = ILLEGAL /\ unrecognized (ch l) = true) \/
  (In (Type_ (flow_tok f)) operator_kinds /\
   existsb (Ascii.eqb (ch l)) operator_chars = true).
Proof.
  intros Hws Hcase.
  destruct Hcase as [K Hop HK Hpk|K HK Hpk|Hz|lit l3 Hl Hrd|lit l3 Hd Hrd|Hop Hnz Hl Hd];
    cbn [flow_tok Type_ newToken newTwoCharToken EOF_token].
  - do 4 right. split; [|assumption].
    unfold operator_kinds. apply in_or_app. left. assumption.
  - do 4 right. split.
    + unfold operator_kinds. apply in_or_app. right.
      destruct HK as [[_ ->]|[_ ->]]; simpl; auto.
    + destruct HK as [[-> _]|[-> _]]; reflexivity.
  - left. auto.
  - right. left. split; [apply LookupIdent_word|assumption].
  - do 2 right. left. auto.
  - do 3 right. left. split; [reflexivity|].
    apply Ascii.eqb_neq in Hnz.
    unfold unrecognized. rewrite Hws, Hop, Hnz, Hl, Hd. reflexivity.
Qed.

Lemma kinds_exclusive (K : TokenType) :
  ~ (K = EOF /\ In K word_kinds) /\ ~ (K = EOF /\ K = INT) /\
  ~ (K = EOF /\ K = ILLEGAL) /\ ~ (K = EOF /\ In K operator_kinds) /\
  ~ (In K word_kinds /\ K = INT) /\ ~ (In K word_kinds /\ K = ILLEGAL) /\
  ~ (In K word_kinds /\ In K operator_kinds) /\
  ~ (K = INT /\ K = ILLEGAL) /\ ~ (K = INT /\ In K operator_kinds) /\
  ~ (K = ILLEGAL /\ In K operator_kinds).
Proof.
  assert (forall A B : TokenType, A <> B -> ~ (K = A /\ K = B)) as Hd
    by (intros A B Hne [-> Hx]; auto).
  repeat split; try (apply Hd; discriminate); intros [H1 H2].
  - destruct (word_kinds_other K H2) as (W & _). auto.
  - destruct (operator_kinds_other K H2) as (O & _). auto.
  - destruct (word_kinds_other K H1) as (_ & _ & W & _). auto.
  - destruct (word_kinds_other K H1) as (_ & W & _). auto.
  - destruct (operator_kinds_other K H2) as (_ & _ & _ & O). auto.
  - destruct (operator_kinds_other K H2) as (_ & _ & O & _). auto.
  - destruct (operator_kinds_other K H2) as (_ & O & _). auto.
Qed.

Lemma classes_exclusive (c : ascii) :
  isWhitespace c = false ->
  ~ (c = zero /\ isLetter c = true) /\ ~ (c = zero /\ isDigit c = true) /\
  ~ (c = zero /\ unrecognized c = true) /\
  ~ (c = zero /\ existsb (Ascii.eqb c) operator_chars = true) /\
  ~ (isLetter c = true /\ isDigit c = true) /\
  ~ (isLetter c = true /\ unrecognized c = true) /\
  ~ (isLetter c = true /\ existsb (Ascii.eqb c) operator_chars = true) /\
  ~ (isDigit c = true /\ unrecognized c = true) /\
  ~ (isDigit c = true /\ existsb (Ascii.eqb c) operator_chars = true) /\
  ~ (unrecognized c = true /\ existsb (Ascii.eqb c) operator_chars = true).
Proof.
  intros Hws.
  assert (c = zero <-> Ascii.eqb c zero = true) as Hz
    by (symmetry; apply Ascii.eqb_eq).
  rewrite Hz.
  destruct (class_of c Hws) as [C|[C|[C|[C|C]]]];
    destruct C as (Cz & Cl & Cd & Co & Cu);
    rewrite Cz, Cl, Cd, Co, Cu;
    repeat split; intros [H1 H2]; discriminate.
Qed.

(** X7: the kind of the token that a call returns is decided by the
    character the cursor is on once the whitespace is skipped: [EOF] if and
    only if it is the byte 0; [IDENT], [FUNCTION] or [LET] if and only if it
    is a letter or an underscore; [INT] if and only if it is a digit;
    [ILLEGAL] if and only if it is in none of the classes; and the kind of
    an operator or of a punctuation if and only if it is one of their
    characters. *)
Theorem kind_by_first_char
    (inp : string) (l l1 : Lexer) (tok : Token) (l' : Lexer) :
  reachable inp l ->
  skipWhitespace l = Ok (tt, l1) ->
  NextToken l = Ok (tok, l') ->
  (Type_ tok = EOF <-> ch l1 = zero) /\
  (In (Type_ tok) word_kinds <-> isLetter (ch l1) = true) /\
  (Type_ tok = INT <-> isDigit (ch l1) = true) /\
  (Type_ tok = ILLEGAL <-> unrecognized (ch l1) = true) /\
  (In (Type_ tok) operator_kinds
   <-> existsb (Ascii.eqb (ch l1)) operator_chars = true).
Proof.
  intros Hr Hs Hn.
  destruct (NextToken_case _ _ _ _ Hr Hn)
    as (l1' & f & l2 & Hs' & Hr1 & Hws & Hcase & Hr2 & -> & _).
  rewrite Hs in Hs'. injection Hs' as <-.
  pose proof (switch_case_kind _ _ _ Hws Hcase) as Hkind.
  pose proof (kinds_exclusive (Type_ (flow_tok f))) as Hk.
  pose proof (classes_exclusive (ch l1) Hws) as Hc.
  tauto.
Qed.

Lemma kind_by_first_char_witness :
  (INT = EOF <-> "4"%char = zero) /\
  (In INT word_kinds <-> isLetter "4" = true) /\
  (INT = INT <-> isDigit "4" = true) /\
  (INT = ILLEGAL <-> unrecognized "4" = true) /\
  (In INT operator_kinds <-> existsb (Ascii.eqb "4") operator_chars = true).
Proof.
  apply (kind_by_first_char " 42;"
           {| input := " 42;"; position := 0; readPosition := 1; ch := " " |}
           {| input := " 42;"; position := 1; readPosition := 2; ch := "4" |}
           {| Type_ := INT; Literal := "42" |}
           {| input := " 42;"; position := 3; readPosition := 4; ch := ";" |}).
  - apply reachable_New. reflexivity.
  - reflexivity.
  - reflexivity.
Defined.

(** ** X8: the empty text *)

(** X8: the text of a token is empty if and only if its kind is [EOF]. *)
Theorem empty_text_iff_EOF
    (inp : string) (l : Lexer) (tok : Token) (l' : Lexer) :
  reachable inp l ->
  NextToken l = Ok (tok, l') ->
  (Literal tok = "" <-> Type_ tok = EOF).
Proof.
  intros Hr Hn.
  destruct (NextToken_case _ _ _ _ Hr Hn)
    as (l1 & f & l2 & Hs & Hr1 & Hws & Hcase & Hr2 & -> & _).
  destruct (reachable_wf _ _ Hr1) as [Hwf1 _].
  assert (forall (K : TokenType) (lit : string),
            lit <> "" -> K <> EOF -> (lit = "" <-> K = EOF)) as Hno
    by (intros; tauto).
  destruct Hcase as [K Hop HK Hpk|K HK Hpk|Hz|lit l3 Hl Hrd|lit l3 Hd Hrd|Hop Hnz Hl Hd];
    cbn [flow_tok Type_ Literal newToken newTwoCharToken EOF_token].
  - apply Hno; [apply string_of_byte_not_empty|].
    apply (single_kinds_other K HK).
  - apply Hno.
    + pose proof (string_of_byte_not_empty (ch l1)) as Hne.
      destruct (string_of_byte (ch l1)); [destruct Hne; reflexivity|discriminate].
    + destruct HK as [[_ ->]|[_ ->]]; discriminate.
  - split; reflexivity.
  - apply Hno; [|apply LookupIdent_not_EOF].
    apply (readRun_text isLetter _ _ _ Hwf1 Hl Hrd).
  - apply Hno; [|discriminate].
    apply (readRun_text isDigit _ _ _ Hwf1 Hd Hrd).
  - apply Hno; [apply string_of_byte_not_empty|discriminate].
Qed.

Lemma empty_text_iff_EOF_witness : "" = "" <-> EOF = EOF.
Proof.
  apply (empty_text_iff_EOF " "
           {| input := " "; position := 0; readPosition := 1; ch := " " |}
           EOF_token
           {| input := " "; position := 2; readPosition := 3; ch := zero |}).
  - apply reachable_New. reflexivity.
  - reflexivity.
Defined.

(** ** X9: [peekChar] and the next [readChar] *)

(** X9: [peekChar] leaves the lexer as it is and returns the character
    that the next [readChar] makes the current one; and it fails in the
    states where [readChar] fails, and in no other. *)
Theorem peekChar_is_next_char (l : Lexer) :
  (peekChar l = Panic <-> readChar l = Panic) /\
  (forall (c : ascii) (l' : Lexer),
     peekChar l = Ok (c, l') ->
     l' = l /\
     exists l2, readChar l = Ok (tt, l2) /\ ch l2 = c /\
                position l2 = readPosition l).
Proof.
  rewrite peekChar_spec, readChar_spec.
  destruct (readPosition l <? 0).
  - split; [tauto|]. intros c l' H. discriminate H.
  - split; [split; discriminate|].
    intros c l' H. injection H as <- <-. split; [reflexivity|].
    exists (advance l). repeat split.
Qed.

Lemma peekChar_is_next_char_witness :
  {| input := "=="; position := 0; readPosition := 1; ch := "=" |}
  = {| input := "=="; position := 0; readPosition := 1; ch := "=" |} /\
  exists l2,
    readChar {| input := "=="; position := 0; readPosition := 1; ch := "=" |}
      = Ok (tt, l2) /\ ch l2 = "="%char /\ position l2 = 1.
Proof.
  apply (proj2 (peekChar_is_next_char
                  {| input := "=="; position := 0; readPosition := 1; ch := "=" |})).
  reflexivity.
Defined.

(** ** X10: an input of whitespace *)




(** ** X11: the classes of characters *)

(** X11: every byte is in exactly one of the classes that [NextToken]
    tells apart: whitespace, letters with the underscore, digits, the byte
    0, the operator and punctuation characters, and the rest; so the order
    of the tests in [skipWhitespace] and in the [switch] decides nothing. *)
Theorem char_classes_partition (c : ascii) : class_count c = 1%nat.
Proof.
  destruct c as [b0 b1 b2 b3 b4 b5 b6 b7].
  destruct b0, b1, b2, b3, b4, b5, b6, b7; vm_compute; reflexivity.
Qed.

(** ** X12 to X14: the earlier version of [NextToken] *)

Lemma switch0_agrees (l : Lexer) :
  Ascii.eqb (ch l) "=" = false ->
  existsb (Ascii.eqb (ch l)) later_operator_chars = false ->
  lexer0.switch_ch l = switch_ch l.
Proof.
  destruct l as [i p r c]. simpl ch.
  destruct c as [[] [] [] [] [] [] [] []]; intros H1 H2;
    try (vm_compute in H1; discriminate H1);
    try (vm_compute in H2; discriminate H2);
    reflexivity.
Qed.

Lemma switch0_assign (l : Lexer) :
  ch l = "="%char ->
  lexer0.switch_ch l = Ok (Break {| Type_ := ASSIGN; Literal := "=" |}, l).
Proof. destruct l as [i p r c]. simpl. intros ->. reflexivity. Qed.

Lemma switch0_later (l : Lexer) :
  existsb (Ascii.eqb (ch l)) later_operator_chars = true ->
  lexer0.switch_ch l = Ok (Break (newToken ILLEGAL (ch l)), l).
Proof.
  destruct l as [i p r c]. simpl ch.
  destruct c as [[] [] [] [] [] [] [] []]; intros H; vm_compute in H;
    first [discriminate H | reflexivity].
Qed.

Lemma NextToken0_agrees (l l1 : Lexer) :
  skipWhitespace l = Ok (tt, l1) ->
  later_only l1 = false ->
  lexer0.NextToken l = NextToken l.
Proof.
  intros Hs Hlater. unfold later_only in Hlater.
  apply orb_false_iff in Hlater. destruct Hlater as [Hop Heq].
  unfold lexer0.NextToken, NextToken, bind, ret. rewrite Hs.
  destruct (Ascii.eqb (ch l1) "=") eqn:E.
  - simpl in Heq. apply Ascii.eqb_eq in E.
    rewrite switch0_assign by assumption.
    rewrite readChar_spec.
    destruct (Z.ltb_spec (readPosition l1) 0) as [Hneg|Hrp].
    + cbv beta iota delta [switch_ch bind gets ret].
      rewrite E. change (Ascii.eqb "=" "=") with true. cbv beta iota.
      rewrite peekChar_spec.
      destruct (Z.ltb_spec (readPosition l1) 0); [reflexivity|lia].
    + rewrite (switch_ch_lookahead l1 EQ ASSIGN) by auto.
      rewrite Heq, E, readChar_spec.
      destruct (Z.ltb_spec (readPosition l1) 0); [lia|reflexivity].
  - rewrite switch0_agrees by assumption. reflexivity.
Qed.

(** X12: the earlier and the later version of [NextToken] return the same
    token and leave the same state, or fail alike, in every state, reachable
    or not, in which the character that [skipWhitespace] stops on is none of
    [-], [!], [*], [/], [<], [>] and is not a [=] followed by a [=]; and so
    too in the states in which [skipWhitespace] fails. *)
Theorem earlier_NextToken_agrees (l : Lexer) :
  (forall l1, skipWhitespace l = Ok (tt, l1) -> later_only l1 = false) ->
  lexer0.NextToken l = NextToken l.
Proof.
  intros Hlater.
  destruct (skipWhitespace l) as [[[] l1]| |] eqn:Hs.
  - exact (NextToken0_agrees l l1 Hs (Hlater l1 eq_refl)).
  - unfold lexer0.NextToken, NextToken, bind. rewrite Hs. reflexivity.
  - unfold lexer0.NextToken, NextToken, bind. rewrite Hs. reflexivity.
Qed.

Lemma earlier_NextToken_agrees_witness :
  lexer0.NextToken {| input := " let"; position := 0; readPosition := 1; ch := " " |}
  = NextToken {| input := " let"; position := 0; readPosition := 1; ch := " " |}.
Proof.
  apply (earlier_NextToken_agrees
           {| input := " let"; position := 0; readPosition := 1; ch := " " |}).
  intros l1 H. vm_compute in H. injection H as <-. reflexivity.
Defined.

Lemma NextToken0_later (l l1 : Lexer) :
  skipWhitespace l = Ok (tt, l1) -> 0 <= readPosition l1 ->
  (existsb (Ascii.eqb (ch l1)) later_operator_chars = true ->
   lexer0.NextToken l = Ok (newToken ILLEGAL (ch l1), advance l1)) /\
  (ch l1 = "="%char ->
   lexer0.NextToken l = Ok ({| Type_ := ASSIGN; Literal := "=" |}, advance l1)).
Proof.
  intros Hs Hrp.
  assert ((readPosition l1 <? 0) = false) as Hlt by (apply Z.ltb_ge; assumption).
  split; intros H; unfold lexer0.NextToken, bind, ret; rewrite Hs.
  - rewrite switch0_later by assumption. rewrite readChar_spec, Hlt. reflexivity.
  - rewrite switch0_assign by assumption. rewrite readChar_spec, Hlt. reflexivity.
Qed.

(** X13: where the earlier version differs: in a reachable state, on one
    of the characters [-], [!], [*], [/], [<], [>] it returns an [ILLEGAL]
    token with that character as text, and on [=] it returns [ASSIGN] with
    text [=] whatever the next character is, so that [==] is two [ASSIGN]
    tokens; each time with one advance. *)
Theorem earlier_NextToken_differs (inp : string) (l l1 : Lexer) :
  reachable inp l ->
  skipWhitespace l = Ok (tt, l1) ->
  (existsb (Ascii.eqb (ch l1)) later_operator_chars = true ->
   lexer0.NextToken l =
     Ok ({| Type_ := ILLEGAL; Literal := String (ch l1) "" |}, advance l1)) /\
  (ch l1 = "="%char ->
   lexer0.NextToken l = Ok ({| Type_ := ASSIGN; Literal := "=" |}, advance l1)).
Proof.
  intros Hr Hs.
  destruct (skipWhitespace_advances _ _ Hs) as (_ & n & Hn).
  destruct (reachable_wf _ _ (reachable_readChars _ _ _ _ Hr Hn)) as [Hwf1 _].
  pose proof (wf_readPosition_nonneg _ Hwf1) as Hrp.
  destruct (NextToken0_later l l1 Hs Hrp) as [H1 H2].
  split; [|assumption].
  intros Hop. rewrite (H1 Hop). unfold newToken.
  rewrite string_of_byte_ascii; [reflexivity|].
  revert Hop. generalize (ch l1). intros c.
  destruct c as [[] [] [] [] [] [] [] []]; intros H; vm_compute in H;
    first [discriminate H | reflexivity].
Qed.

Lemma earlier_NextToken_differs_witness :
  lexer0.NextToken {| input := "=="; position := 0; readPosition := 1; ch := "=" |}
  = Ok ({| Type_ := ASSIGN; Literal := "=" |},
        advance {| input := "=="; position := 0; readPosition := 1; ch := "=" |}).
Proof.
  refine (proj2 (earlier_NextToken_differs "=="
           {| input := "=="; position := 0; readPosition := 1; ch := "=" |}
           {| input := "=="; position := 0; readPosition := 1; ch := "=" |}
           _ _) _).
  - apply reachable_New. reflexivity.
  - reflexivity.
  - reflexivity.
Defined.



(** ** X15: where the cursor is after [k] calls *)


(** ** X16: the two versions on the inputs of the earlier one *)

Lemma has_byte_char_at (c : ascii) (s : string) (i : Z) :
  has_byte c s = false -> c <> zero -> char_at s i <> c.
Proof.
  intros Hb Hc. unfold char_at.
  destruct (i <? 0); [congruence|].
  destruct (String.get (Z.to_nat i) s) as [c'|] eqn:Hg; [|congruence].
  intros ->. exact (has_byte_get _ _ _ Hb Hg).
Qed.

Lemma has_pair_get (a b : ascii) (s : string) (n : nat) :
  String.get n s = Some a -> String.get (S n) s = Some b ->
  has_pair a b s = true.
Proof.
  revert n. induction s as [|c s IH]; intros n Ha Hb; [discriminate Ha|].
  simpl. destruct n as [|n].
  - simpl in Ha, Hb. injection Ha as ->. rewrite Ascii.eqb_refl.
    destruct s as [|c' s']; [discriminate Hb|].
    simpl in Hb. injection Hb as ->. rewrite Ascii.eqb_refl. reflexivity.
  - simpl in Ha. change (String.get (S (S n)) (String c s))
      with (String.get (S n) s) in Hb.
    rewrite (IH n Ha Hb). apply orb_true_r.
Qed.

Lemma has_pair_char_at (a b : ascii) (s : string) (i : Z) :
  has_pair a b s = false -> a <> zero -> b <> zero -> 0 <= i ->
  char_at s i = a -> char_at s (i + 1) <> b.
Proof.
  intros Hp Ha Hb Hi Hca Hcb.
  assert (i + 1 < len s) as Hin by (apply char_inside; congruence).
  assert (String.get (Z.to_nat i) s = Some a) as Hga.
  { rewrite char_at_get by (unfold len in *; lia).
    rewrite Z2Nat.id by lia. congruence. }
  assert (String.get (S (Z.to_nat i)) s = Some b) as Hgb.
  { rewrite char_at_get by (unfold len in *; lia).
    rewrite Nat2Z.inj_succ, Z2Nat.id by lia.
    unfold Z.succ. congruence. }
  rewrite (has_pair_get a b s _ Hga Hgb) in Hp. discriminate Hp.
Qed.

Lemma earlier_input_later_only (inp : string) (l : Lexer) :
  earlier_input inp = true -> reachable inp l -> later_only l = false.
Proof.
  intros He Hr. destruct (reachable_wf _ _ Hr) as [Hwf Hi].
  pose proof (wf_position _ Hwf) as Hp.
  pose proof (wf_readPosition _ Hwf) as Hrd.
  pose proof (wf_ch _ Hwf) as Hc. rewrite Hi in Hc.
  unfold earlier_input in He. apply andb_true_iff in He.
  destruct He as [Hops Hpair].
  apply negb_true_iff in Hops. apply negb_true_iff in Hpair.
  unfold later_operator_chars in Hops. simpl in Hops.
  repeat (apply orb_false_iff in Hops; destruct Hops as [?Hb Hops]).
  unfold later_only, later_operator_chars. simpl existsb.
  apply orb_false_iff. split.
  - repeat (apply orb_false_iff; split); try reflexivity;
      apply Ascii.eqb_neq; rewrite Hc; apply has_byte_char_at;
      first [assumption | discriminate].
  - destruct (Ascii.eqb (ch l) "=") eqn:E; [|reflexivity]. simpl.
    apply Ascii.eqb_eq in E. apply Ascii.eqb_neq.
    rewrite Hi, Hrd.
    apply (has_pair_char_at "=" "=" inp); try assumption;
      first [discriminate | congruence].
Qed.

Lemma NextTokens0_agree (inp : string) (n : nat) :
  earlier_input inp = true ->
  forall l, reachable inp l -> lexer0.NextTokens n l = NextTokens n l.
Proof.
  intros He. induction n as [|n IH]; intros l Hr; [reflexivity|].
  destruct (reachable_wf _ _ Hr) as [Hwf _].
  destruct (skipWhitespace_total l Hwf) as (l1 & Hs).
  destruct (skipWhitespace_advances _ _ Hs) as (_ & m & Hm).
  pose proof (reachable_readChars _ _ _ _ Hr Hm) as Hr1.
  pose proof (earlier_input_later_only _ _ He Hr1) as Hlater.
  simpl. unfold bind.
  rewrite (NextToken0_agrees l l1 Hs Hlater).
  destruct (NextToken l) as [[tok l']| |] eqn:Hn; try reflexivity.
  rewrite (IH l' (reachable_NextToken _ _ _ _ Hr Hn)). reflexivity.
Qed.

(** X16: on an input in which none of the characters [-], [!], [*], [/],
    [<], [>] occurs and no [=] is followed by a [=], the earlier and the
    later version of the lexer return the same tokens, for any number of
    calls. *)
Theorem earlier_lex_agrees (inp : string) (n : nat) :
  earlier_input inp = true -> lexer0.lex n inp = lex n inp.
Proof.
  intros He. unfold lexer0.lex, lex.
  destruct (New inp) as [l| |] eqn:Hnew; try reflexivity.
  simpl. rewrite (NextTokens0_agree inp n He l); [reflexivity|].
  apply reachable_New. assumption.
Qed.

Lemma earlier_lex_agrees_witness :
  lexer0.lex 8 "let add = fn(x, y) { x + y; };"
  = lex 8 "let add = fn(x, y) { x + y; };".
Proof.
  apply (earlier_lex_agrees "let add = fn(x, y) { x + y; };" 8). reflexivity.
Defined.

(** ** X17: the kind of a punctuation token is its text *)

Lemma switch_ch_punctuation (l : Lexer) :
  existsb (Ascii.eqb (ch l)) declared_punctuation = true ->
  switch_ch l =
    Ok (Break {| Type_ := String (ch l) ""; Literal := String (ch l) "" |}, l).
Proof.
  destruct l as [i p r c]. simpl ch.
  destruct c as [[] [] [] [] [] [] [] []]; intros H; vm_compute in H;
    first [discriminate H | reflexivity].
Qed.

(** X17: in a reachable state, when the character after the whitespace is
    one of [+], [,], [;], [(], [)], [{], [}], or is a [=] that is not
    followed by a [=], [NextToken] returns the token whose kind and whose
    text are both that one character, and makes one advance past it. *)
Theorem punctuation_token_kind_is_text (inp : string) (l l1 : Lexer) :
  reachable inp l ->
  skipWhitespace l = Ok (tt, l1) ->
  existsb (Ascii.eqb (ch l1)) declared_punctuation = true \/
  (ch l1 = "="%char /\ char_at inp (readPosition l1) <> "="%char) ->
  NextToken l =
    Ok ({| Type_ := String (ch l1) ""; Literal := String (ch l1) "" |},
        advance l1).
Proof.
  intros Hr Hs Hc.
  destruct (skipWhitespace_advances _ _ Hs) as (_ & n & Hn).
  destruct (reachable_wf _ _ (reachable_readChars _ _ _ _ Hr Hn)) as [Hwf1 Hi1].
  pose proof (wf_readPosition_nonneg _ Hwf1) as Hrp.
  assert ((readPosition l1 <? 0) = false) as Hlt by (apply Z.ltb_ge; assumption).
  unfold NextToken, bind, ret. rewrite Hs.
  destruct Hc as [Hp|[He Hpk]].
  - rewrite switch_ch_punctuation by assumption.
    rewrite readChar_spec, Hlt. reflexivity.
  - rewrite (switch_ch_lookahead l1 EQ ASSIGN) by auto.
    apply Ascii.eqb_neq in Hpk. rewrite Hi1, Hpk, He.
    rewrite readChar_spec, Hlt. reflexivity.
Qed.

Lemma punctuation_token_kind_is_text_witness :
  NextToken {| input := " ;"; position := 0; readPosition := 1; ch := " " |}
  = Ok ({| Type_ := ";"; Literal := ";" |},
        {| input := " ;"; position := 2; readPosition := 3; ch := zero |}).
Proof.
  refine (punctuation_token_kind_is_text " ;"
            {| input := " ;"; position := 0; readPosition := 1; ch := " " |}
            {| input := " ;"; position := 1; readPosition := 2; ch := ";" |}
            _ _ _).
  - apply reachable_New. reflexivity.
  - reflexivity.
  - left. reflexivity.
Defined.

End lexer_extra.
